(** * gnmi command line client (goarista/cmd/gnmi/main.go)

    A shallow embedding of the operation processor of the gNMI command
    line client: the argument loop of [main], the three executors [get],
    [set] and [subscribe], the value decoder [strVal] and the fixed-point
    renderer [strDecimal64].

    Go values are modelled as follows.
    - [string] is a Rocq [string] (a sequence of 8-bit characters), [[]byte]
      is a [list byte]; the conversions [string(b)] and [[]byte(s)] are
      [string_of_list_byte] and [list_byte_of_string].
    - [uint64], [int64] and [uint32] are integers in [Z]; every arithmetic
      operation on them that can leave the range is wrapped explicitly.
    - A run-time panic is an outcome of its own ([Panic]), distinct from a
      returned [error].
    - Output, RPC calls and the deferred [cancel] are recorded in a trace of
      [event]s, threaded by a small writer monad. *)

From Stdlib Require Import ZArith NArith List String Ascii Bool Lia.
From Stdlib Require Import DecimalString.
Import ListNotations.

Local Open Scope string_scope.
Local Open Scope list_scope.

(** ** Machine integers *)

Module U64.
Local Open Scope Z_scope.

Definition modulus : Z := 2 ^ 64.

(** Reduction of an unbounded result into the [uint64] range. *)
Definition wrap (z : Z) : Z := z mod modulus.

Definition in_range (z : Z) : Prop := 0 <= z < modulus.

Definition mul (a b : Z) : Z := wrap (a * b).
End U64.

Module U32.
Local Open Scope Z_scope.

Definition modulus : Z := 2 ^ 32.

Definition in_range (z : Z) : Prop := 0 <= z < modulus.
End U32.

(** ** Go run-time outcomes *)

(** The result of evaluating a Go expression that may panic. *)
Inductive go (A : Type) : Type :=
| Ret (a : A)
| Panic (msg : string).

Arguments Ret {A} a.
Arguments Panic {A} msg.

Definition go_bind {A B : Type} (m : go A) (k : A -> go B) : go B :=
  match m with
  | Ret a => k a
  | Panic msg => Panic msg
  end.

Definition go_map {A B : Type} (f : A -> B) (m : go A) : go B :=
  go_bind m (fun a => Ret (f a)).

Definition divide_by_zero : string := "runtime error: integer divide by zero".

(** ** fmt verbs *)

(** [%d] and [%v] on an unsigned integer. *)
Definition fmt_uint (z : Z) : string := NilZero.string_of_uint (N.to_uint (Z.to_N z)).

(** [%d] and [%v] on a signed integer. *)
Definition fmt_int (z : Z) : string := NilZero.string_of_int (Z.to_int z).

(** [%v] on a [bool]. *)
Definition fmt_bool (b : bool) : string := if b then "true" else "false".

(** ** Decimal64 *)

(** [pb.Decimal64]: [Digits] is a [uint64], [Precision] a [uint32]. *)
Record Decimal64 : Type := {
  Digits : Z;
  Precision : Z
}.

Definition Decimal64_wf (d : Decimal64) : Prop :=
  U64.in_range (Digits d) /\ U32.in_range (Precision d).

(** The loop [for it > 0 { div *= 10; it-- }] of [strDecimal64], by
    recursion on the counter [it]. *)
Fixpoint div_loop (it : nat) (div : Z) : Z :=
  match it with
  | O => div
  | S it' => div_loop it' (U64.mul div 10)
  end.

(** The divisor [strDecimal64] arrives at when [Precision > 0]. *)
Definition divisor (precision : Z) : Z :=
  div_loop (Z.to_nat (precision - 1)) 10.

(** The two integers [i] and [frac] that [strDecimal64] hands to
    [Sprintf].  Division and remainder by a zero [div] panic. *)
Definition decimal64_parts (d : Decimal64) : go (Z * Z) :=
  if (Precision d >? 0)%Z then
    let div := divisor (Precision d) in
    if (div =? 0)%Z then Panic divide_by_zero
    else Ret ((Digits d / div)%Z, (Digits d mod div)%Z)
  else Ret (Digits d, 0%Z).

(** [fmt.Sprintf("%d.%d", i, frac)]. *)
Definition sprintf_d_dot_d (p : Z * Z) : string :=
  fmt_uint (fst p) ++ "." ++ fmt_uint (snd p).

Definition strDecimal64 (d : Decimal64) : go string :=
  go_map sprintf_d_dot_d (decimal64_parts d).

(** ** Errors *)

(** Go [error] values, as far as the program tells them apart: the
    sentinel [io.EOF], an error built by [errors.New], and an error handed
    over by a collaborator (gRPC transport, path parser). *)
Inductive error : Type :=
| io_EOF
| errors_New (text : string)
| foreign (text : string).

(** [err == io.EOF]. *)
Definition is_EOF (err : error) : bool :=
  match err with
  | io_EOF => true
  | _ => false
  end.

(** ** Protocol messages (package pb), restricted to the fields read or
    written by main.go *)

Module pb.

Record PathElem : Type := {
  PathElem_Name : string;
  PathElem_Key : list (string * string)
}.

Record Path : Type := {
  Path_Element : list string;
  Path_Elem : list PathElem
}.

(** The deprecated [pb.Value]. *)
Record Value : Type := {
  Value_Value : list Byte.byte
}.

(** The oneof wrapper held by [TypedValue.Value].  The wrappers that
    [strVal] has no case for are kept by the name [%T] prints. *)
Inductive isTypedValue_Value : Type :=
| TypedValue_StringVal (StringVal : string)
| TypedValue_JsonIetfVal (JsonIetfVal : list Byte.byte)
| TypedValue_IntVal (IntVal : Z)
| TypedValue_UintVal (UintVal : Z)
| TypedValue_BoolVal (BoolVal : bool)
| TypedValue_BytesVal (BytesVal : list Byte.byte)
| TypedValue_DecimalVal (DecimalVal : Decimal64)
| TypedValue_other (go_type : string).

(** [TypedValue.Value] is an interface; [None] is its nil. *)
Record TypedValue : Type := {
  TypedValue_Value : option isTypedValue_Value
}.

(** The getter [GetValue] of [TypedValue]: nil on a nil receiver. *)
Definition GetValue (m : option TypedValue) : option isTypedValue_Value :=
  match m with
  | Some v => TypedValue_Value v
  | None => None
  end.

Record Update : Type := {
  Update_Path : option Path;
  Update_Value : option Value;
  Update_Val : option TypedValue
}.

Record Notification : Type := {
  Notification_Update : list Update
}.

Record GetRequest : Type := {
  GetRequest_Path : list Path
}.

Record GetResponse : Type := {
  GetResponse_Notification : list Notification
}.

Record SetRequest : Type := {
  SetRequest_Delete : list Path;
  SetRequest_Replace : list Update;
  SetRequest_Update : list Update
}.

(** [pb.Error]: [Code] is a [uint32]. *)
Record Error : Type := {
  Error_Code : Z;
  Error_Message : string
}.

Record SetResponse : Type := {
  SetResponse_Message : option Error
}.

Record SubscribeRequest : Type := {
  SubscribeRequest_Path : list Path
}.

(** The oneof wrapper held by [SubscribeResponse.Response]. *)
Inductive isSubscribeResponse_Response : Type :=
| SubscribeResponse_Update (Update : Notification)
| SubscribeResponse_SyncResponse (SyncResponse : bool)
| SubscribeResponse_Error (Error : pb.Error).

Record SubscribeResponse : Type := {
  SubscribeResponse_Response : option isSubscribeResponse_Response
}.

End pb.

(** [codes.OK]. *)
Definition codes_OK : Z := 0.

(** ** The value decoder *)

(** [%T] on the dynamic type of [TypedValue.Value]. *)
Definition fmt_T (v : option pb.isTypedValue_Value) : string :=
  match v with
  | None => "<nil>"
  | Some (pb.TypedValue_StringVal _) => "*gnmi.TypedValue_StringVal"
  | Some (pb.TypedValue_JsonIetfVal _) => "*gnmi.TypedValue_JsonIetfVal"
  | Some (pb.TypedValue_IntVal _) => "*gnmi.TypedValue_IntVal"
  | Some (pb.TypedValue_UintVal _) => "*gnmi.TypedValue_UintVal"
  | Some (pb.TypedValue_BoolVal _) => "*gnmi.TypedValue_BoolVal"
  | Some (pb.TypedValue_BytesVal _) => "*gnmi.TypedValue_BytesVal"
  | Some (pb.TypedValue_DecimalVal _) => "*gnmi.TypedValue_DecimalVal"
  | Some (pb.TypedValue_other go_type) => go_type
  end.

(** [fmt.Sprintf("[oops - %T]", v)]. *)
Definition oops (v : option pb.isTypedValue_Value) : string :=
  "[oops - " ++ fmt_T v ++ "]".

Definition strVal (u : pb.Update) : go string :=
  match pb.Update_Value u with
  | Some value => Ret (string_of_list_byte (pb.Value_Value value))
  | None =>
    match pb.GetValue (pb.Update_Val u) with
    | Some (pb.TypedValue_StringVal StringVal) => Ret StringVal
    | Some (pb.TypedValue_JsonIetfVal JsonIetfVal) =>
        Ret (string_of_list_byte JsonIetfVal)
    | Some (pb.TypedValue_IntVal IntVal) => Ret (fmt_int IntVal)
    | Some (pb.TypedValue_UintVal UintVal) => Ret (fmt_uint UintVal)
    | Some (pb.TypedValue_BoolVal BoolVal) => Ret (fmt_bool BoolVal)
    | Some (pb.TypedValue_BytesVal BytesVal) =>
        Ret (string_of_list_byte BytesVal)
    | Some (pb.TypedValue_DecimalVal DecimalVal) => strDecimal64 DecimalVal
    | v => Ret (oops v)
    end
  end.

(** ** Effects *)

(** What a run of the program does to the outside world, in order. *)
Inductive event : Type :=
| Dial
| Usage
| Stderr (s : string)
| Stdout (s : string)
| Fatal (err : error)
| CallGet (req : pb.GetRequest)
| CallSet (req : pb.SetRequest)
| CallSubscribe
| StreamSend (req : pb.SubscribeRequest)
| StreamRecv
| Cancel.

(** The events that put a request on the wire. *)
Definition is_rpc (e : event) : bool :=
  match e with
  | CallGet _ | CallSet _ | CallSubscribe | StreamSend _ => true
  | _ => false
  end.

(** How a computation ends: with a value, in a panic, in [os.Exit], or
    never (a [Recv] that no message answers). *)
Inductive outcome (A : Type) : Type :=
| Done (a : A)
| Crash (msg : string)
| Exited (code : Z)
| Blocked.

Arguments Done {A} a.
Arguments Crash {A} msg.
Arguments Exited {A} code.
Arguments Blocked {A}.

Definition IO (A : Type) : Type := (list event * outcome A)%type.

Definition ret {A : Type} (a : A) : IO A := ([], Done a).

Definition bind {A B : Type} (m : IO A) (k : A -> IO B) : IO B :=
  match m with
  | (t, Done a) => let (t', r) := k a in (t ++ t', r)
  | (t, Crash msg) => (t, Crash msg)
  | (t, Exited code) => (t, Exited code)
  | (t, Blocked) => (t, Blocked)
  end.

Declare Scope io_scope.
Delimit Scope io_scope with io.
Notation "x <- m ;; k" := (bind m (fun x => k))
  (at level 61, m at next level, right associativity) : io_scope.
Notation "m ;; k" := (bind m (fun _ => k))
  (at level 61, right associativity) : io_scope.
Local Open Scope io_scope.

Definition emit (e : event) : IO unit := ([e], Done tt).

(** An expression that may panic, evaluated inside a computation. *)
Definition eval {A : Type} (g : go A) : IO A :=
  match g with
  | Ret a => ret a
  | Panic msg => ([], Crash msg)
  end.

(** [os.Exit(code)]: nothing after it runs. *)
Definition os_Exit {A : Type} (code : Z) : IO A := ([], Exited code).

(** [defer f()] around a function body: [f] runs when the body returns
    and when it panics; it does not run on [os.Exit], nor while the body
    is still waiting. *)
Definition defer {A : Type} (e : event) (body : IO A) : IO A :=
  match body with
  | (t, Done a) => (t ++ [e], Done a)
  | (t, Crash msg) => (t ++ [e], Crash msg)
  | (t, Exited code) => (t, Exited code)
  | (t, Blocked) => (t, Blocked)
  end.

Fixpoint for_each {A : Type} (f : A -> IO unit) (l : list A) : IO unit :=
  match l with
  | [] => ret tt
  | a :: l' => f a ;; for_each f l'
  end.

Definition nl : string := String (ascii_of_nat 10) EmptyString.

(** ** The client handle *)

(** The stream returned by [client.Subscribe]: the result of [Send], and
    the results of the successive calls of [Recv].  When [incoming] is
    used up, [Recv] waits for ever. *)
Record Stream : Type := {
  Send : pb.SubscribeRequest -> option error;
  incoming : list (error + pb.SubscribeResponse)
}.

(** The interface [pb.GNMIClient].  A Go result [(v, err)] is [inr v]
    when [err] is nil and [inl err] otherwise. *)
Record GNMIClient : Type := {
  client_Get : pb.GetRequest -> error + pb.GetResponse;
  client_Set : pb.SetRequest -> error + pb.SetResponse;
  client_Subscribe : error + Stream
}.

(** ** Operations *)

Record operation : Type := {
  opType : string;
  path : list string;
  val : string
}.

(** What the argument loop of [main] settles on, once its side effects
    are set aside. *)
Inductive intent : Type :=
| UsageError (msg : string)
| NoOperation
| GetIntent (paths : list (list string))
| SubscribeIntent (paths : list (list string))
| SetIntent (setOps : list operation).

Definition nonempty {A : Type} (l : list A) : bool :=
  negb (Nat.eqb (List.length l) 0).

Definition is_mutation (tok : string) : bool :=
  (tok =? "update") || (tok =? "replace") || (tok =? "delete").

Definition not_allowed (tok : string) : string :=
  "error: '" ++ tok ++ "' not allowed after 'merge|replace|delete'".

(** ** Collaborators

    What main.go calls but does not define: the path functions and
    request builders of package gnmi together with the client that
    [gnmi.Dial] returns, [ioutil.ReadFile], and the quoting behind the
    verb [%q]. *)
Class Collaborators : Type := {
  SplitPath : string -> list string;
  ParseGNMIElements : list string -> error + list pb.PathElem;
  NewGetRequest : list (list string) -> error + pb.GetRequest;
  NewSubscribeRequest : list (list string) -> error + pb.SubscribeRequest;
  StrPath : option pb.Path -> string;
  ReadFile : string -> error + list Byte.byte;
  Quote : string -> string;
  gnmi_Dial : GNMIClient
}.

Section Program.

Context {env : Collaborators}.

(** Modelled from the spec: [gnmi.SplitPaths] is not part of main.go;
    every token becomes one path, in order. *)
Definition SplitPaths (paths : list string) : list (list string) :=
  map SplitPath paths.

(** *** extractJSON *)

Definition extractJSON (val : string) : list Byte.byte :=
  match ReadFile val with
  | inr jsonBytes => jsonBytes
  | inl _ => list_byte_of_string val
  end.

(** *** get *)

Definition print_update (update : pb.Update) : IO unit :=
  emit (Stdout (StrPath (pb.Update_Path update) ++ ":" ++ nl)) ;;
  s <- eval (strVal update) ;;
  emit (Stdout (s ++ nl)).

Definition get (client : GNMIClient) (paths : list (list string))
  : IO (option error) :=
  match NewGetRequest paths with
  | inl err => ret (Some err)
  | inr req =>
    emit (CallGet req) ;;
    match client_Get client req with
    | inl err => ret (Some err)
    | inr resp =>
      for_each
        (fun notif => for_each print_update (pb.Notification_Update notif))
        (pb.GetResponse_Notification resp) ;;
      ret None
    end
  end.

(** *** set *)

Definition jsonval (j : list Byte.byte) : pb.TypedValue :=
  {| pb.TypedValue_Value := Some (pb.TypedValue_JsonIetfVal j) |}.

Definition update (p : pb.Path) (v : list Byte.byte) : pb.Update :=
  {| pb.Update_Path := Some p;
     pb.Update_Value := None;
     pb.Update_Val := Some (jsonval v) |}.

Definition empty_SetRequest : pb.SetRequest :=
  {| pb.SetRequest_Delete := [];
     pb.SetRequest_Replace := [];
     pb.SetRequest_Update := [] |}.

(** The [switch op.opType] of [set]. *)
Definition add_operation (req : pb.SetRequest) (op : operation)
  (p : pb.Path) : pb.SetRequest :=
  if opType op =? "delete" then
    {| pb.SetRequest_Delete := pb.SetRequest_Delete req ++ [p];
       pb.SetRequest_Replace := pb.SetRequest_Replace req;
       pb.SetRequest_Update := pb.SetRequest_Update req |}
  else if opType op =? "update" then
    {| pb.SetRequest_Delete := pb.SetRequest_Delete req;
       pb.SetRequest_Replace := pb.SetRequest_Replace req;
       pb.SetRequest_Update :=
         pb.SetRequest_Update req ++ [update p (extractJSON (val op))] |}
  else if opType op =? "replace" then
    {| pb.SetRequest_Delete := pb.SetRequest_Delete req;
       pb.SetRequest_Replace :=
         pb.SetRequest_Replace req ++ [update p (extractJSON (val op))];
       pb.SetRequest_Update := pb.SetRequest_Update req |}
  else req.

(** The [for _, op := range setOps] loop of [set]; [inl err] is the
    early [return err]. *)
Fixpoint set_request (setOps : list operation) (req : pb.SetRequest)
  : error + pb.SetRequest :=
  match setOps with
  | [] => inr req
  | op :: setOps' =>
    match ParseGNMIElements (path op) with
    | inl err => inl err
    | inr elm =>
      let p := {| pb.Path_Element := path op; pb.Path_Elem := elm |} in
      set_request setOps' (add_operation req op p)
    end
  end.

Definition set (client : GNMIClient) (setOps : list operation)
  : IO (option error) :=
  match set_request setOps empty_SetRequest with
  | inl err => ret (Some err)
  | inr req =>
    emit (CallSet req) ;;
    match client_Set client req with
    | inl err => ret (Some err)
    | inr resp =>
      match pb.SetResponse_Message resp with
      | Some message =>
        if negb (pb.Error_Code message =? codes_OK)%Z
        then ret (Some (errors_New (pb.Error_Message message)))
        else ret None
      | None => ret None
      end
    end
  end.

(** *** subscribe *)

Definition print_subscribed (update : pb.Update) : IO unit :=
  s <- eval (strVal update) ;;
  emit (Stdout (StrPath (pb.Update_Path update) ++ " = " ++ s ++ nl)).

(** What one turn of the [for] loop does with the result of [Recv]:
    [Some r] is [return r], [None] goes round again. *)
Definition recv_step (received : error + pb.SubscribeResponse)
  : IO (option (option error)) :=
  match received with
  | inl err =>
    if is_EOF err then ret (Some None) else ret (Some (Some err))
  | inr response =>
    match pb.SubscribeResponse_Response response with
    | Some (pb.SubscribeResponse_Error resp) =>
      ret (Some (Some (errors_New (pb.Error_Message resp))))
    | Some (pb.SubscribeResponse_SyncResponse resp) =>
      if negb resp
      then ret (Some (Some (errors_New "initial sync failed")))
      else ret None
    | Some (pb.SubscribeResponse_Update resp) =>
      for_each print_subscribed (pb.Notification_Update resp) ;;
      ret None
    | None => ret None
    end
  end.

(** The receive loop, over what [Recv] is going to deliver. *)
Fixpoint recv_loop (incoming : list (error + pb.SubscribeResponse))
  : IO (option error) :=
  match incoming with
  | [] => (emit StreamRecv ;; ([], Blocked))
  | received :: incoming' =>
    emit StreamRecv ;;
    r <- recv_step received ;;
    match r with
    | Some result => ret result
    | None => recv_loop incoming'
    end
  end.

Definition subscribe (client : GNMIClient) (paths : list (list string))
  : IO (option error) :=
  defer Cancel
    (emit CallSubscribe ;;
     match client_Subscribe client with
     | inl err => ret (Some err)
     | inr stream =>
       match NewSubscribeRequest paths with
       | inl err => ret (Some err)
       | inr req =>
         emit (StreamSend req) ;;
         match Send stream req with
         | Some err => ret (Some err)
         | None => recv_loop (incoming stream)
         end
       end
     end).

(** *** main *)

Definition exitWithError {A : Type} (s : string) : IO A :=
  emit Usage ;;
  emit (Stderr (s ++ nl)) ;;
  os_Exit 1.

Definition glog_Fatal {A : Type} (err : error) : IO A :=
  emit (Fatal err) ;;
  os_Exit 255.

(** [if err != nil { glog.Fatal(err) }; return]. *)
Definition fatal_on (err : option error) : IO unit :=
  match err with
  | Some e => glog_Fatal e
  | None => ret tt
  end.

Definition unknown_operation (tok : string) : string :=
  "error: unknown operation " ++ Quote tok.

(** The [for i := 0; i < len(args); i++] loop of [main] and what follows
    it.  [args] is the part of the argument vector from index [i] on, so
    that [len(args) == i+1] reads: nothing follows the current token. *)
Fixpoint main_loop (client : GNMIClient) (args : list string)
  (setOps : list operation) : IO unit :=
  match args with
  | [] =>
    (if nonempty setOps then ret tt else (emit Usage ;; os_Exit 1)) ;;
    err <- set client setOps ;;
    fatal_on err
  | tok :: rest =>
    if tok =? "capabilities" then
      (if nonempty setOps
       then exitWithError (not_allowed "capabilities") else ret tt) ;;
      exitWithError "error: 'capabilities' not supported"
    else if tok =? "get" then
      (if nonempty setOps
       then exitWithError (not_allowed "get") else ret tt) ;;
      err <- get client (SplitPaths rest) ;;
      fatal_on err
    else if tok =? "subscribe" then
      (if nonempty setOps
       then exitWithError (not_allowed "subscribe") else ret tt) ;;
      err <- subscribe client (SplitPaths rest) ;;
      fatal_on err
    else if is_mutation tok then
      match rest with
      | [] => exitWithError "error: missing path"
      | p :: rest1 =>
        if negb (tok =? "delete") then
          match rest1 with
          | [] => exitWithError "error: missing JSON"
          | v :: rest2 =>
            main_loop client rest2
              (setOps ++
               [{| opType := tok; path := SplitPath p; val := v |}])
          end
        else
          main_loop client rest1
            (setOps ++
             [{| opType := tok; path := SplitPath p; val := "" |}])
      end
    else exitWithError (unknown_operation tok)
  end.

Definition main (args : list string) : IO unit :=
  emit Dial ;;
  main_loop gnmi_Dial args [].

(** *** The argument loop as a parser *)

(** The decisions of [main_loop] without its effects: the intent it
    acts on. *)
Fixpoint parseOps (args : list string) (setOps : list operation)
  : intent :=
  match args with
  | [] => if nonempty setOps then SetIntent setOps else NoOperation
  | tok :: rest =>
    if tok =? "capabilities" then
      if nonempty setOps
      then UsageError (not_allowed "capabilities")
      else UsageError "error: 'capabilities' not supported"
    else if tok =? "get" then
      if nonempty setOps
      then UsageError (not_allowed "get")
      else GetIntent (SplitPaths rest)
    else if tok =? "subscribe" then
      if nonempty setOps
      then UsageError (not_allowed "subscribe")
      else SubscribeIntent (SplitPaths rest)
    else if is_mutation tok then
      match rest with
      | [] => UsageError "error: missing path"
      | p :: rest1 =>
        if negb (tok =? "delete") then
          match rest1 with
          | [] => UsageError "error: missing JSON"
          | v :: rest2 =>
            parseOps rest2
              (setOps ++
               [{| opType := tok; path := SplitPath p; val := v |}])
          end
        else
          parseOps rest1
            (setOps ++
             [{| opType := tok; path := SplitPath p; val := "" |}])
      end
    else UsageError (unknown_operation tok)
  end.

Definition parse (args : list string) : intent := parseOps args [].

(** The same loop with the index of the source: [i] runs over the whole
    argument vector, [nth i args] is [args[i]] and [skipn (i + 1) args] is
    [args[i+1:]].  [turns] bounds the number of turns of the loop; the
    result is [None] when they are used up before the loop is left. *)
Fixpoint parseAt (turns : nat) (args : list string) (i : nat)
  (setOps : list operation) : option intent :=
  if (i <? List.length args)%nat then
    match turns with
    | O => None
    | S turns' =>
      let tok := nth i args "" in
      if tok =? "capabilities" then
        if nonempty setOps
        then Some (UsageError (not_allowed "capabilities"))
        else Some (UsageError "error: 'capabilities' not supported")
      else if tok =? "get" then
        if nonempty setOps
        then Some (UsageError (not_allowed "get"))
        else Some (GetIntent (SplitPaths (skipn (i + 1) args)))
      else if tok =? "subscribe" then
        if nonempty setOps
        then Some (UsageError (not_allowed "subscribe"))
        else Some (SubscribeIntent (SplitPaths (skipn (i + 1) args)))
      else if is_mutation tok then
        if (List.length args =? i + 1)%nat
        then Some (UsageError "error: missing path")
        else
          let i1 := i + 1 in
          let op_path := SplitPath (nth i1 args "") in
          if negb (tok =? "delete") then
            if (List.length args =? i1 + 1)%nat
            then Some (UsageError "error: missing JSON")
            else
              let i2 := i1 + 1 in
              parseAt turns' args (i2 + 1)
                (setOps ++
                 [{| opType := tok; path := op_path; val := nth i2 args "" |}])
          else
            parseAt turns' args (i1 + 1)
              (setOps ++ [{| opType := tok; path := op_path; val := "" |}])
      else Some (UsageError (unknown_operation tok))
    end
  else if nonempty setOps then Some (SetIntent setOps) else Some NoOperation.

(** What [main] does once the intent is known. *)
Definition dispatch (client : GNMIClient) (i : intent) : IO unit :=
  match i with
  | UsageError msg => exitWithError msg
  | NoOperation => emit Usage ;; os_Exit 1
  | GetIntent paths => err <- get client paths ;; fatal_on err
  | SubscribeIntent paths => err <- subscribe client paths ;; fatal_on err
  | SetIntent setOps => err <- set client setOps ;; fatal_on err
  end.

End Program.

Arguments exitWithError {A} s.
Arguments glog_Fatal {A} err.

(** ** The command grammar of the usage text

    [((update|replace PATH JSON)|(delete PATH))+]: a complete mutation
    command, the tokens it is written with, and the operation the
    argument loop queues for it. *)

Inductive command : Type :=
| Update (p json : string)
| Replace (p json : string)
| Delete (p : string).

Definition command_tokens (c : command) : list string :=
  match c with
  | Update p json => ["update"; p; json]
  | Replace p json => ["replace"; p; json]
  | Delete p => ["delete"; p]
  end.

Definition command_operation {env : Collaborators} (c : command)
  : operation :=
  match c with
  | Update p json =>
      {| opType := "update"; path := SplitPath p; val := json |}
  | Replace p json =>
      {| opType := "replace"; path := SplitPath p; val := json |}
  | Delete p => {| opType := "delete"; path := SplitPath p; val := "" |}
  end.

Definition tokens (cmds : list command) : list string :=
  flat_map command_tokens cmds.

(** The keywords that read rather than mutate. *)
Definition is_read (tok : string) : bool :=
  (tok =? "get") || (tok =? "subscribe") || (tok =? "capabilities").

(** Some token of [args] is a mutation keyword and a later one is [get],
    [subscribe] or [capabilities], wherever they stand. *)
Fixpoint mutation_then_read (args : list string) : bool :=
  match args with
  | [] => false
  | tok :: rest =>
    (is_mutation tok && existsb is_read rest) || mutation_then_read rest
  end.

(** [capabilities] occurs in [args] and no token in front of it is a
    mutation keyword. *)
Fixpoint capabilities_unpreceded (args : list string) : bool :=
  match args with
  | [] => false
  | tok :: rest =>
    if tok =? "capabilities" then true
    else if is_mutation tok then false
    else capabilities_unpreceded rest
  end.

(** No token of [pre] is one of the five keywords that queue or run an
    operation. *)
Definition no_operation_keyword (pre : list string) : Prop :=
  Forall (fun tok =>
    (tok =? "get") = false /\ (tok =? "subscribe") = false /\
    is_mutation tok = false) pre.

Definition no_rpc (t : list event) : Prop :=
  forallb (fun e => negb (is_rpc e)) t = true.

(** ** The receive loop, message by message *)

(** The three ways a received item makes [subscribe] return an error. *)
Inductive fails_with : error + pb.SubscribeResponse -> error -> Prop :=
| fails_error_response (resp : pb.Error) :
    fails_with
      (inr {| pb.SubscribeResponse_Response :=
                Some (pb.SubscribeResponse_Error resp) |})
      (errors_New (pb.Error_Message resp))
| fails_sync_false :
    fails_with
      (inr {| pb.SubscribeResponse_Response :=
                Some (pb.SubscribeResponse_SyncResponse false) |})
      (errors_New "initial sync failed")
| fails_transport (err : error) :
    err <> io_EOF -> fails_with (inl err) err.

(** Every update of the notification has a printable value. *)
Definition printable (n : pb.Notification) : Prop :=
  Forall (fun u => exists s, strVal u = Ret s) (pb.Notification_Update n).

(** The received items after which the loop calls [Recv] again. *)
Inductive goes_on : error + pb.SubscribeResponse -> Prop :=
| goes_on_sync :
    goes_on
      (inr {| pb.SubscribeResponse_Response :=
                Some (pb.SubscribeResponse_SyncResponse true) |})
| goes_on_update (n : pb.Notification) :
    printable n ->
    goes_on
      (inr {| pb.SubscribeResponse_Response :=
                Some (pb.SubscribeResponse_Update n) |})
| goes_on_unset :
    goes_on (inr {| pb.SubscribeResponse_Response := None |}).

(** The structured path of the operation can be built. *)
Definition parses {env : Collaborators} (op : operation) : Prop :=
  exists elm, ParseGNMIElements (path op) = inr elm.

(** The exits of a function body: it returned or it panicked. *)
Definition exits {A : Type} (r : outcome A) : bool :=
  match r with
  | Done _ | Crash _ => true
  | Exited _ | Blocked => false
  end.

(** ** A concrete environment

    One instance of the collaborators, used to run the program on
    concrete arguments. *)

Module Demo.

Definition slash : ascii := "/"%char.

(** Splits at every slash and drops empty elements. *)
Fixpoint split_at_slash (s cur : string) : list string :=
  match s with
  | EmptyString => if cur =? "" then [] else [cur]
  | String c s' =>
    if Ascii.eqb c slash then
      if cur =? "" then split_at_slash s' ""
      else cur :: split_at_slash s' ""
    else split_at_slash s' (cur ++ String c EmptyString)
  end.

Definition SplitPath (p : string) : list string := split_at_slash p "".

Definition malformed : error := foreign "malformed path element".

(** An element that opens with a bracket has no name and is refused. *)
Fixpoint ParseGNMIElements (elms : list string)
  : error + list pb.PathElem :=
  match elms with
  | [] => inr []
  | e :: elms' =>
    if prefix "[" e then inl malformed
    else
      match ParseGNMIElements elms' with
      | inl err => inl err
      | inr l =>
        inr ({| pb.PathElem_Name := e; pb.PathElem_Key := [] |} :: l)
      end
  end.

Fixpoint parse_paths (paths : list (list string))
  : error + list pb.Path :=
  match paths with
  | [] => inr []
  | p :: paths' =>
    match ParseGNMIElements p with
    | inl err => inl err
    | inr elm =>
      match parse_paths paths' with
      | inl err => inl err
      | inr l => inr ({| pb.Path_Element := []; pb.Path_Elem := elm |} :: l)
      end
    end
  end.

Definition NewGetRequest (paths : list (list string))
  : error + pb.GetRequest :=
  match parse_paths paths with
  | inl err => inl err
  | inr l => inr {| pb.GetRequest_Path := l |}
  end.

Definition NewSubscribeRequest (paths : list (list string))
  : error + pb.SubscribeRequest :=
  match parse_paths paths with
  | inl err => inl err
  | inr l => inr {| pb.SubscribeRequest_Path := l |}
  end.

Definition StrPath (p : option pb.Path) : string :=
  match p with
  | None => "/"
  | Some p => String.concat "/" (map pb.PathElem_Name (pb.Path_Elem p))
  end.

(** A file system with one readable file. *)
Definition ReadFile (name : string) : error + list Byte.byte :=
  if name =? "cfg.json" then inr (list_byte_of_string "{}")
  else inl (foreign "open: no such file or directory").

Definition Quote (s : string) : string :=
  let q := String (ascii_of_nat 34) EmptyString in q ++ s ++ q.

Definition a_b : pb.Path :=
  {| pb.Path_Element := [];
     pb.Path_Elem := [ {| pb.PathElem_Name := "a"; pb.PathElem_Key := [] |};
                       {| pb.PathElem_Name := "b"; pb.PathElem_Key := [] |} ] |}.

Definition string_update (s : string) : pb.Update :=
  {| pb.Update_Path := Some a_b;
     pb.Update_Value := None;
     pb.Update_Val :=
       Some {| pb.TypedValue_Value := Some (pb.TypedValue_StringVal s) |} |}.

Definition decimal_update (d : Decimal64) : pb.Update :=
  {| pb.Update_Path := Some a_b;
     pb.Update_Value := None;
     pb.Update_Val :=
       Some {| pb.TypedValue_Value := Some (pb.TypedValue_DecimalVal d) |} |}.

Definition sync (b : bool) : error + pb.SubscribeResponse :=
  inr {| pb.SubscribeResponse_Response :=
           Some (pb.SubscribeResponse_SyncResponse b) |}.

Definition notify (us : list pb.Update) : error + pb.SubscribeResponse :=
  inr {| pb.SubscribeResponse_Response :=
           Some (pb.SubscribeResponse_Update
                   {| pb.Notification_Update := us |}) |}.

(** A server that answers every [Set] with the given status, every
    [Get] with one update, and streams the given items. *)
Definition server (status : pb.Error)
  (items : list (error + pb.SubscribeResponse)) : GNMIClient :=
  {| client_Get := fun _ =>
       inr {| pb.GetResponse_Notification :=
                [ {| pb.Notification_Update := [string_update "x"] |} ] |};
     client_Set := fun _ =>
       inr {| pb.SetResponse_Message := Some status |};
     client_Subscribe :=
       inr {| Send := fun _ => None; incoming := items |} |}.

Definition ok : pb.Error :=
  {| pb.Error_Code := 0; pb.Error_Message := "" |}.

Definition invalid : pb.Error :=
  {| pb.Error_Code := 3; pb.Error_Message := "invalid argument" |}.

Definition client : GNMIClient := server ok [sync false].

Definition env : Collaborators :=
  Build_Collaborators SplitPath ParseGNMIElements NewGetRequest
    NewSubscribeRequest StrPath ReadFile Quote client.

Definition parse : list string -> intent := parse (env := env).

Definition set : GNMIClient -> list operation -> IO (option error) :=
  set (env := env).

Definition subscribe
  : GNMIClient -> list (list string) -> IO (option error) :=
  subscribe (env := env).

Definition main : list string -> IO unit := main (env := env).

End Demo.

(** ** The argument loop with the bounds checks of the run time *)

Definition index_out_of_range : string := "runtime error: index out of range".

Definition slice_out_of_range : string :=
  "runtime error: slice bounds out of range".

(** [args[k]]: a panic when [k] is not below [len(args)]. *)
Definition index (args : list string) (k : nat) : go string :=
  match nth_error args k with
  | Some tok => Ret tok
  | None => Panic index_out_of_range
  end.

(** [args[k:]]: a panic when [k] is above [len(args)]. *)
Definition slice_from (args : list string) (k : nat) : go (list string) :=
  if (k <=? List.length args)%nat then Ret (skipn k args)
  else Panic slice_out_of_range.

(** The loop of [main] over the index [i], every [args[...]] checked as
    the run time checks it.  [turns] bounds the number of turns; [None]
    says that they were used up before the loop was left. *)
Fixpoint parseChecked {env : Collaborators} (turns : nat)
  (args : list string) (i : nat) (setOps : list operation)
  : option (go intent) :=
  if (i <? List.length args)%nat then
    match turns with
    | O => None
    | S turns' =>
      match index args i with
      | Panic msg => Some (Panic msg)
      | Ret tok =>
        if tok =? "capabilities" then
          if nonempty setOps
          then Some (Ret (UsageError (not_allowed "capabilities")))
          else Some (Ret (UsageError "error: 'capabilities' not supported"))
        else if tok =? "get" then
          if nonempty setOps
          then Some (Ret (UsageError (not_allowed "get")))
          else Some (go_map (fun rest => GetIntent (SplitPaths rest))
                            (slice_from args (i + 1)))
        else if tok =? "subscribe" then
          if nonempty setOps
          then Some (Ret (UsageError (not_allowed "subscribe")))
          else Some (go_map (fun rest => SubscribeIntent (SplitPaths rest))
                            (slice_from args (i + 1)))
        else if is_mutation tok then
          if (List.length args =? i + 1)%nat
          then Some (Ret (UsageError "error: missing path"))
          else
            let i1 := i + 1 in
            match index args i1 with
            | Panic msg => Some (Panic msg)
            | Ret p =>
              if negb (tok =? "delete") then
                if (List.length args =? i1 + 1)%nat
                then Some (Ret (UsageError "error: missing JSON"))
                else
                  let i2 := i1 + 1 in
                  match index args i2 with
                  | Panic msg => Some (Panic msg)
                  | Ret v =>
                    parseChecked turns' args (i2 + 1)
                      (setOps ++
                       [{| opType := tok; path := SplitPath p; val := v |}])
                  end
              else
                parseChecked turns' args (i1 + 1)
                  (setOps ++
                   [{| opType := tok; path := SplitPath p; val := "" |}])
            end
        else Some (Ret (UsageError (unknown_operation tok)))
      end
    end
  else if nonempty setOps then Some (Ret (SetIntent setOps))
  else Some (Ret NoOperation).

(** ** What the executors are expected to put out *)

(** The six words the [switch] of [main] has a case for. *)
Definition is_keyword (tok : string) : bool :=
  is_read tok || is_mutation tok.

(** The argument loop left through [exitWithError] or through the usage
    exit after it. *)
Definition rejected (i : intent) : Prop :=
  match i with
  | UsageError _ | NoOperation => True
  | _ => False
  end.

(** The executor an accepted intent is handed to. *)
Definition executor {env : Collaborators} (client : GNMIClient)
  (i : intent) : option (IO (option error)) :=
  match i with
  | GetIntent paths => Some (get client paths)
  | SubscribeIntent paths => Some (subscribe client paths)
  | SetIntent setOps => Some (set client setOps)
  | UsageError _ | NoOperation => None
  end.

(** The text of a value that can be rendered. *)
Definition shown (u : pb.Update) : string :=
  match strVal u with
  | Ret s => s
  | Panic _ => ""
  end.

(** The two lines [get] prints for an update. *)
Definition got_lines {env : Collaborators} (u : pb.Update) : list event :=
  [Stdout (StrPath (pb.Update_Path u) ++ ":" ++ nl); Stdout (shown u ++ nl)].

Definition get_output {env : Collaborators} (resp : pb.GetResponse)
  : list event :=
  flat_map (fun notif => flat_map got_lines (pb.Notification_Update notif))
           (pb.GetResponse_Notification resp).

(** Every update of the response has a printable value. *)
Definition all_printable (resp : pb.GetResponse) : Prop :=
  Forall printable (pb.GetResponse_Notification resp).

(** The line [subscribe] prints for an update. *)
Definition subscribed_line {env : Collaborators} (u : pb.Update) : event :=
  Stdout (StrPath (pb.Update_Path u) ++ " = " ++ shown u ++ nl).

(** One call of [Recv] and the lines printed for what it returned. *)
Definition received_events {env : Collaborators}
  (received : error + pb.SubscribeResponse) : list event :=
  StreamRecv ::
  match received with
  | inr {| pb.SubscribeResponse_Response :=
             Some (pb.SubscribeResponse_Update n) |} =>
      map subscribed_line (pb.Notification_Update n)
  | _ => []
  end.


(** The path message [set] builds for an operation whose elements can be
    parsed. *)
Definition path_of {env : Collaborators} (op : operation) : pb.Path :=
  {| pb.Path_Element := path op;
     pb.Path_Elem :=
       match ParseGNMIElements (path op) with
       | inr elm => elm
       | inl _ => []
       end |}.

Definition has_type (t : string) (op : operation) : bool := opType op =? t.

(** The entries the operations of one kind contribute, in their order. *)
Definition deleted {env : Collaborators} (setOps : list operation)
  : list pb.Path :=
  map path_of (filter (has_type "delete") setOps).

Definition updated {env : Collaborators} (t : string)
  (setOps : list operation) : list pb.Update :=
  map (fun op => update (path_of op) (extractJSON (val op)))
      (filter (has_type t) setOps).

(** The computation does not end in [os.Exit]. *)
Definition no_exit {A : Type} (m : IO A) : Prop :=
  forall code, snd m <> Exited code.

(** A line on standard output. *)
Definition is_stdout (e : event) : Prop := exists s, e = Stdout s.

(** The request [set] sends for operations whose paths can all be
    parsed. *)
Definition request_of {env : Collaborators} (setOps : list operation)
  : pb.SetRequest :=
  {| pb.SetRequest_Delete := deleted setOps;
     pb.SetRequest_Replace := updated "replace" setOps;
     pb.SetRequest_Update := updated "update" setOps |}.

(** The events that open an exchange with the server. *)
Definition is_call (e : event) : bool :=
  match e with
  | CallGet _ | CallSet _ | CallSubscribe => true
  | _ => false
  end.

Definition calls (t : list event) : list event := filter is_call t.

(** The last token of [args] is [update], [replace] or [delete]: a
    mutation keyword that no token follows. *)
Definition mutation_keyword_last (args : list string) : bool :=
  match rev args with
  | tok :: _ => is_mutation tok
  | [] => false
  end.

(** The last token but one of [args] is [update] or [replace]: one token
    follows the keyword, and no second one. *)
Definition update_keyword_last_but_one (args : list string) : bool :=
  match rev args with
  | _ :: tok :: _ => (tok =? "update") || (tok =? "replace")
  | _ => false
  end.

(** * Properties *)

(** ** The writer monad *)

Lemma bind_ret_l {A B : Type} (a : A) (k : A -> IO B) :
  bind (ret a) k = k a.
Proof.
  unfold bind, ret. destruct (k a) as [t r]. reflexivity.
Qed.

Lemma bind_exit {A B : Type} (t : list event) (code : Z) (k : A -> IO B) :
  bind (t, Exited code) k = (t, Exited code).
Proof. reflexivity. Qed.

Lemma bind_emit {B : Type} (e : event) (k : unit -> IO B) :
  bind (emit e) k = (e :: fst (k tt), snd (k tt)).
Proof.
  unfold bind, emit. destruct (k tt) as [t r]. reflexivity.
Qed.

Lemma bind_done {A B : Type} (t : list event) (a : A) (k : A -> IO B) :
  bind (t, Done a) k = (t ++ fst (k a), snd (k a)).
Proof.
  unfold bind. destruct (k a) as [t' r]. reflexivity.
Qed.

(** Closes a goal that differs from a computation only by taking its
    trace and outcome apart and putting them together again. *)
Ltac io_eta :=
  match goal with
  | |- context [let (_, _) := ?m in _] => destruct m; reflexivity
  end.

(** ** Decimal64 *)

Section Decimal.
Local Open Scope Z_scope.

Lemma div_loop_pow (it : nat) (div : Z) :
  U64.in_range div ->
  div_loop it div = (div * 10 ^ Z.of_nat it) mod U64.modulus.
Proof.
  revert div. induction it as [|it IH]; intros div Hdiv.
  - cbn [div_loop]. change (10 ^ Z.of_nat 0) with 1.
    rewrite Z.mul_1_r, Z.mod_small; [reflexivity | exact Hdiv].
  - cbn [div_loop]. rewrite IH.
    + unfold U64.mul, U64.wrap.
      rewrite Z.mul_mod_idemp_l by (unfold U64.modulus; lia).
      rewrite Nat2Z.inj_succ, Z.pow_succ_r by lia.
      f_equal. ring.
    + unfold U64.mul, U64.wrap, U64.in_range.
      apply Z.mod_pos_bound. unfold U64.modulus. lia.
Qed.

(** The divisor is ten to the precision, reduced into [uint64]. *)
Lemma divisor_pow (precision : Z) :
  0 < precision ->
  divisor precision = 10 ^ precision mod U64.modulus.
Proof.
  intros Hp. unfold divisor.
  rewrite div_loop_pow by (unfold U64.in_range, U64.modulus; lia).
  rewrite Z2Nat.id by lia.
  rewrite <- Z.pow_succ_r by lia.
  f_equal. f_equal. lia.
Qed.

Lemma pow10_fits (precision : Z) :
  0 <= precision <= 19 -> 0 < 10 ^ precision < U64.modulus.
Proof.
  intros Hp. split.
  - apply Z.pow_pos_nonneg; lia.
  - apply Z.le_lt_trans with (10 ^ 19).
    + apply Z.pow_le_mono_r; lia.
    + unfold U64.modulus. lia.
Qed.

(** Up to nineteen fractional digits the divisor is exact and the two
    parts put the digits together again. *)
Lemma decimal64_parts_exact (d : Decimal64) :
  Decimal64_wf d ->
  Precision d <= 19 ->
  exists i frac,
    decimal64_parts d = Ret (i, frac) /\
    i * 10 ^ Precision d + frac = Digits d /\
    0 <= frac /\ (0 < Precision d -> frac < 10 ^ Precision d).
Proof.
  intros [Hd Hp] H19. unfold decimal64_parts.
  destruct (Z.gtb_spec (Precision d) 0) as [Hpos | Hzero].
  - assert (Hfit : 0 < 10 ^ Precision d < U64.modulus)
      by (apply pow10_fits; lia).
    rewrite divisor_pow by lia.
    rewrite Z.mod_small by lia.
    destruct (Z.eqb_spec (10 ^ Precision d) 0) as [E | _]; [lia |].
    exists (Digits d / 10 ^ Precision d), (Digits d mod 10 ^ Precision d).
    split; [reflexivity |].
    pose proof (Z.div_mod (Digits d) (10 ^ Precision d)) as Hdm.
    pose proof (Z.mod_pos_bound (Digits d) (10 ^ Precision d)) as Hb.
    split; [| split]; [ | lia | intros _; lia].
    rewrite Z.mul_comm. symmetry. apply Hdm. lia.
  - assert (E : Precision d = 0) by (destruct Hp; lia).
    exists (Digits d), 0. rewrite E.
    repeat split; try lia.
Qed.

(** Whatever the precision, when the division does not panic the two
    parts put the digits together again with the divisor the loop arrived
    at, which is ten to the precision only as long as that fits. *)
Lemma decimal64_parts_divisor (d : Decimal64) :
  0 < Precision d ->
  divisor (Precision d) <> 0 ->
  decimal64_parts d
  = Ret (Digits d / divisor (Precision d),
         Digits d mod divisor (Precision d)) /\
  Digits d / divisor (Precision d) * divisor (Precision d)
  + Digits d mod divisor (Precision d) = Digits d.
Proof.
  intros Hpos Hdiv. unfold decimal64_parts.
  destruct (Z.gtb_spec (Precision d) 0) as [_ | Hzero]; [| lia].
  destruct (Z.eqb_spec (divisor (Precision d)) 0) as [E | _];
    [contradiction |].
  split; [reflexivity |].
  rewrite Z.mul_comm. symmetry. apply Z.div_mod. exact Hdiv.
Qed.

(** With no fractional digits the integer part is the digits. *)
Lemma decimal64_parts_precision_0 (digits : Z) :
  decimal64_parts {| Digits := digits; Precision := 0 |} = Ret (digits, 0).
Proof. reflexivity. Qed.

Lemma pow10_64_wraps : 10 ^ 64 mod U64.modulus = 0.
Proof. reflexivity. Qed.

(** From sixty-four fractional digits on the divisor has wrapped to
    zero. *)
Lemma divisor_zero (precision : Z) :
  64 <= precision -> divisor precision = 0.
Proof.
  intros Hp. rewrite divisor_pow by lia.
  replace precision with (64 + (precision - 64)) by lia.
  rewrite Z.pow_add_r by lia.
  rewrite <- Z.mul_mod_idemp_l by (unfold U64.modulus; lia).
  rewrite pow10_64_wraps. reflexivity.
Qed.

Lemma div_loop_nonzero_below (it : nat) :
  (it < 63)%nat -> div_loop it 10 <> 0.
Proof.
  intros Hit.
  assert (Hall : forallb (fun n => negb (div_loop n 10 =? 0)) (seq 0 63)
                 = true) by (vm_compute; reflexivity).
  rewrite forallb_forall in Hall.
  specialize (Hall it). rewrite in_seq in Hall.
  assert (Hn : negb (div_loop it 10 =? 0) = true) by (apply Hall; lia).
  intros E. rewrite E in Hn. discriminate.
Qed.

Lemma divisor_nonzero (precision : Z) :
  0 < precision < 64 -> divisor precision <> 0.
Proof.
  intros Hp. unfold divisor. apply div_loop_nonzero_below. lia.
Qed.

(** [strDecimal64] returns unless the divisor has wrapped to zero. *)
Lemma strDecimal64_returns (d : Decimal64) :
  Precision d < 64 -> exists s, strDecimal64 d = Ret s.
Proof.
  intros Hp. unfold strDecimal64, decimal64_parts.
  destruct (Z.gtb_spec (Precision d) 0) as [Hpos | Hzero].
  - destruct (Z.eqb_spec (divisor (Precision d)) 0) as [E | _].
    + exfalso. revert E. apply divisor_nonzero. lia.
    + eexists. reflexivity.
  - eexists. reflexivity.
Qed.

Lemma strDecimal64_panics (d : Decimal64) :
  64 <= Precision d -> strDecimal64 d = Panic divide_by_zero.
Proof.
  intros Hp. unfold strDecimal64, decimal64_parts.
  destruct (Z.gtb_spec (Precision d) 0) as [_ | Hzero]; [| lia].
  rewrite divisor_zero by exact Hp. reflexivity.
Qed.

End Decimal.

(** C1, at the input where it breaks: with [Digits = 2^64 - 1] and
    [Precision = 20] the divisor [10^20] no longer fits a [uint64] and has
    wrapped around to [7766279631452241920]; the integer part comes out as
    [2] and the fractional part as [2914184810805067775], and
    [2 * 10^20 + 2914184810805067775] is not the digits. *)
Theorem strDecimal64_wrapped_divisor :
  let d := {| Digits := 18446744073709551615; Precision := 20 |} in
  Decimal64_wf d /\
  divisor (Precision d) = 7766279631452241920%Z /\
  decimal64_parts d = Ret (2, 2914184810805067775)%Z /\
  (2 * 10 ^ Precision d + 2914184810805067775 <> Digits d)%Z /\
  strDecimal64 d = Ret "2.2914184810805067775".
Proof.
  cbv zeta. repeat split; try (vm_compute; congruence).
Qed.

(** ** strVal *)

(** The deprecated field wins over whatever [Val] holds. *)
Lemma strVal_legacy (p : option pb.Path) (value : pb.Value)
  (v : option pb.TypedValue) :
  strVal {| pb.Update_Path := p; pb.Update_Value := Some value;
            pb.Update_Val := v |}
  = Ret (string_of_list_byte (pb.Value_Value value)).
Proof. reflexivity. Qed.

(** A wrapper without a case of its own, and an unset value, are shown
    by their type. *)
Lemma strVal_placeholder (p : option pb.Path) (go_type : string) :
  strVal {| pb.Update_Path := p; pb.Update_Value := None;
            pb.Update_Val :=
              Some {| pb.TypedValue_Value :=
                        Some (pb.TypedValue_other go_type) |} |}
  = Ret ("[oops - " ++ go_type ++ "]")%string /\
  strVal {| pb.Update_Path := p; pb.Update_Value := None;
            pb.Update_Val := Some {| pb.TypedValue_Value := None |} |}
  = Ret "[oops - <nil>]" /\
  strVal {| pb.Update_Path := p; pb.Update_Value := None;
            pb.Update_Val := None |}
  = Ret "[oops - <nil>]".
Proof. repeat split. Qed.

(** [strVal] returns a string on every update but one that carries a
    decimal of sixty-four or more fractional digits in [Val] and nothing
    in the deprecated field. *)
Lemma strVal_returns (u : pb.Update) :
  (forall d,
      pb.Update_Value u = None ->
      pb.GetValue (pb.Update_Val u) = Some (pb.TypedValue_DecimalVal d) ->
      (Precision d < 64)%Z) ->
  exists s, strVal u = Ret s.
Proof.
  intros Hdec. unfold strVal.
  destruct (pb.Update_Value u) as [value |]; [eexists; reflexivity |].
  destruct (pb.GetValue (pb.Update_Val u)) as [[s | j | i | n | b | bs | d | t] |];
    try (eexists; reflexivity).
  apply strDecimal64_returns. apply Hdec; reflexivity.
Qed.

(** C3, at the input where it breaks: an update whose [Val] is a decimal
    with [Precision = 64] and whose deprecated field is unset makes
    [strVal] panic on a division by zero instead of returning a string. *)
Theorem strVal_decimal_panics :
  let d := {| Digits := 1; Precision := 64 |} in
  Decimal64_wf d /\
  strVal {| pb.Update_Path := None; pb.Update_Value := None;
            pb.Update_Val :=
              Some {| pb.TypedValue_Value :=
                        Some (pb.TypedValue_DecimalVal d) |} |}
  = Panic divide_by_zero.
Proof.
  cbv zeta. repeat split; try (vm_compute; congruence).
Qed.

(** ** The argument loop *)

Lemma list_length_ind {A : Type} (P : list A -> Prop) :
  (forall l, (forall l', List.length l' < List.length l -> P l') -> P l) ->
  forall l, P l.
Proof.
  intros step l.
  assert (H : forall n l, List.length l < n -> P l).
  { induction n as [|n IH]; intros l0 Hl; [lia |].
    apply step. intros l' Hl'. apply IH. lia. }
  apply (H (S (List.length l))). lia.
Qed.

Lemma skipn_nth_cons {A : Type} (d : A) (l : list A) :
  forall i,
    i < List.length l -> skipn i l = nth i l d :: skipn (S i) l.
Proof.
  induction l as [|a l IH]; intros i Hi; [cbn in Hi; lia |].
  destruct i as [|i]; [reflexivity |].
  cbn [skipn nth]. apply IH. cbn in Hi. lia.
Qed.

Lemma is_mutation_cases (tok : string) :
  is_mutation tok = true ->
  tok = "update" \/ tok = "replace" \/ tok = "delete".
Proof.
  unfold is_mutation. rewrite !orb_true_iff, !String.eqb_eq. tauto.
Qed.

Lemma is_read_cases (tok : string) :
  is_read tok = true ->
  tok = "get" \/ tok = "subscribe" \/ tok = "capabilities".
Proof.
  unfold is_read. rewrite !orb_true_iff, !String.eqb_eq. tauto.
Qed.

Lemma nonempty_app {A : Type} (l : list A) (a : A) :
  nonempty (l ++ [a]) = true.
Proof.
  unfold nonempty. rewrite length_app, Nat.add_comm. reflexivity.
Qed.

Lemma nonempty_true {A : Type} (l : list A) :
  l <> [] -> nonempty l = true.
Proof.
  destruct l; [congruence | reflexivity].
Qed.

Section ArgumentLoop.

Context {env : Collaborators}.

(** [main_loop] is [parseOps] followed by [dispatch]. *)
Lemma main_loop_dispatch (client : GNMIClient) (args : list string) :
  forall setOps,
    main_loop client args setOps = dispatch client (parseOps args setOps).
Proof.
  induction args as [args IH] using list_length_ind. intros setOps.
  destruct args as [|tok rest].
  - cbn. destruct (nonempty setOps); cbn; [io_eta | reflexivity].
  - cbn.
    destruct (tok =? "capabilities").
    { destruct (nonempty setOps); reflexivity. }
    destruct (tok =? "get").
    { destruct (nonempty setOps); [reflexivity | cbn; io_eta]. }
    destruct (tok =? "subscribe").
    { destruct (nonempty setOps); [reflexivity | cbn; io_eta]. }
    destruct (is_mutation tok); [| reflexivity].
    destruct rest as [|p rest1]; [reflexivity |].
    destruct (negb (tok =? "delete")).
    + destruct rest1 as [|v rest2]; [reflexivity |].
      apply IH. cbn. lia.
    + apply IH. cbn. lia.
Qed.

Lemma main_dispatch (args : list string) :
  main args = (emit Dial ;; dispatch gnmi_Dial (parse args)).
Proof.
  unfold main, parse. rewrite main_loop_dispatch. reflexivity.
Qed.

(** Complete mutation commands in front are queued one by one, in
    order. *)
Lemma parseOps_tokens (cmds : list command) :
  forall rest setOps,
    parseOps (tokens cmds ++ rest) setOps
    = parseOps rest (setOps ++ map command_operation cmds).
Proof.
  induction cmds as [|c cmds IH]; intros rest setOps.
  - cbn. rewrite app_nil_r. reflexivity.
  - destruct c as [p json | p json | p]; cbn;
      fold (tokens cmds); rewrite IH, <- app_assoc; reflexivity.
Qed.

(** The loop over the index and the loop over the rest of the arguments
    decide alike, and one turn for every argument is enough. *)
Lemma parseAt_skipn (turns : nat) (args : list string) :
  forall i setOps,
    List.length args - i <= turns ->
    parseAt turns args i setOps = Some (parseOps (skipn i args) setOps).
Proof.
  induction turns as [|turns IH]; intros i setOps Hturns.
  - cbn [parseAt].
    destruct (Nat.ltb_spec i (List.length args)) as [Hi | Hi]; [lia |].
    rewrite skipn_all2 by exact Hi. cbn.
    destruct (nonempty setOps); reflexivity.
  - cbn [parseAt].
    destruct (Nat.ltb_spec i (List.length args)) as [Hi | Hi].
    + rewrite (skipn_nth_cons "" args i Hi). cbn [parseOps].
      cbv zeta. replace (i + 1) with (S i) by lia.
      destruct (nth i args "" =? "capabilities").
      { destruct (nonempty setOps); reflexivity. }
      destruct (nth i args "" =? "get").
      { destruct (nonempty setOps); reflexivity. }
      destruct (nth i args "" =? "subscribe").
      { destruct (nonempty setOps); reflexivity. }
      destruct (is_mutation (nth i args "")); [| reflexivity].
      destruct (Nat.eqb_spec (List.length args) (S i)) as [Hlen | Hlen].
      { rewrite skipn_all2 by lia. reflexivity. }
      rewrite (skipn_nth_cons "" args (S i)) by lia.
      replace (S i + 1) with (S (S i)) by lia.
      destruct (negb (nth i args "" =? "delete")).
      * destruct (Nat.eqb_spec (List.length args) (S (S i))) as [Hlen2 | Hlen2].
        { rewrite skipn_all2 by lia. reflexivity. }
        rewrite (skipn_nth_cons "" args (S (S i))) by lia.
        replace (S (S i) + 1) with (S (S (S i))) by lia.
        apply IH. lia.
      * apply IH. lia.
    + rewrite skipn_all2 by exact Hi. cbn.
      destruct (nonempty setOps); reflexivity.
Qed.

Lemma parseAt_parse (args : list string) :
  parseAt (List.length args) args 0 [] = Some (parse args).
Proof.
  rewrite parseAt_skipn by lia. reflexivity.
Qed.

(** A read intent comes out only when nothing is queued and the
    keyword is the token the loop is looking at. *)
Lemma parseOps_read_inv (args : list string) :
  forall setOps,
    (forall paths, parseOps args setOps = GetIntent paths ->
       setOps = [] /\
       exists rest, args = "get" :: rest /\ paths = SplitPaths rest)
    /\
    (forall paths, parseOps args setOps = SubscribeIntent paths ->
       setOps = [] /\
       exists rest,
         args = "subscribe" :: rest /\ paths = SplitPaths rest).
Proof.
  induction args as [args IH] using list_length_ind. intros setOps.
  assert (Hqueued : forall l (op : operation), l ++ [op] <> [])
    by (intros [|] ? ?; discriminate).
  destruct args as [|tok rest].
  - cbn. destruct (nonempty setOps); split; intros; discriminate.
  - cbn.
    destruct (String.eqb_spec tok "capabilities").
    { destruct (nonempty setOps); split; intros; discriminate. }
    destruct (String.eqb_spec tok "get") as [-> |].
    { destruct setOps; cbn; split; intros paths H; try discriminate.
      injection H as <-. split; [reflexivity |].
      exists rest. split; reflexivity. }
    destruct (String.eqb_spec tok "subscribe") as [-> |].
    { destruct setOps; cbn; split; intros paths H; try discriminate.
      injection H as <-. split; [reflexivity |].
      exists rest. split; reflexivity. }
    destruct (is_mutation tok); [| split; intros; discriminate].
    destruct rest as [|p rest1]; [split; intros; discriminate |].
    destruct (negb (tok =? "delete")).
    + destruct rest1 as [|v rest2]; [split; intros; discriminate |].
      split; intros paths H; exfalso;
        apply IH in H; try (cbn; lia);
        destruct H as [H _]; exact (Hqueued _ _ H).
    + split; intros paths H; exfalso;
        apply IH in H; try (cbn; lia);
        destruct H as [H _]; exact (Hqueued _ _ H).
Qed.

(** A Set intent comes out only of complete mutation commands, queued in
    the order they were written in. *)
Lemma parseOps_set_inv (args : list string) :
  forall setOps ops,
    parseOps args setOps = SetIntent ops ->
    exists cmds,
      args = tokens cmds /\ ops = setOps ++ map command_operation cmds.
Proof.
  induction args as [args IH] using list_length_ind. intros setOps ops.
  destruct args as [|tok rest].
  - cbn. destruct (nonempty setOps); intros H; [| discriminate H].
    injection H as <-. exists []. rewrite app_nil_r. split; reflexivity.
  - cbn.
    destruct (tok =? "capabilities").
    { destruct (nonempty setOps); discriminate. }
    destruct (tok =? "get").
    { destruct (nonempty setOps); discriminate. }
    destruct (tok =? "subscribe").
    { destruct (nonempty setOps); discriminate. }
    destruct (is_mutation tok) eqn:Hmut; [| discriminate].
    destruct rest as [|p rest1]; [discriminate |].
    destruct (String.eqb_spec tok "delete") as [-> | Hdel]; cbn [negb].
    + intros H. apply IH in H; [| cbn; lia].
      destruct H as (cmds & -> & ->).
      exists (Delete p :: cmds). rewrite <- app_assoc. split; reflexivity.
    + destruct rest1 as [|v rest2]; [discriminate |].
      intros H. apply IH in H; [| cbn; lia].
      destruct H as (cmds & -> & ->).
      destruct (is_mutation_cases tok Hmut) as [-> | [-> | ->]].
      * exists (Update p v :: cmds). rewrite <- app_assoc. split; reflexivity.
      * exists (Replace p v :: cmds). rewrite <- app_assoc. split; reflexivity.
      * congruence.
Qed.

(** The loop runs out of tokens with nothing queued only when there was
    no token at all. *)
Lemma parseOps_nothing_inv (args : list string) :
  forall setOps,
    parseOps args setOps = NoOperation -> args = [] /\ setOps = [].
Proof.
  induction args as [args IH] using list_length_ind. intros setOps.
  destruct args as [|tok rest].
  - cbn. destruct setOps; [split; reflexivity | discriminate].
  - cbn.
    destruct (tok =? "capabilities").
    { destruct (nonempty setOps); discriminate. }
    destruct (tok =? "get").
    { destruct (nonempty setOps); discriminate. }
    destruct (tok =? "subscribe").
    { destruct (nonempty setOps); discriminate. }
    destruct (is_mutation tok); [| discriminate].
    destruct rest as [|p rest1]; [discriminate |].
    destruct (negb (tok =? "delete")).
    + destruct rest1 as [|v rest2]; [discriminate |].
      intros H. apply IH in H; [| cbn; lia].
      destruct H as [_ H]. destruct setOps; discriminate H.
    + intros H. apply IH in H; [| cbn; lia].
      destruct H as [_ H]. destruct setOps; discriminate H.
Qed.

(** Every argument vector that is not refused with a usage error is
    written in the grammar of the usage text: [get] or [subscribe] and
    then paths, or a sequence of complete mutation commands. *)
Lemma parse_accepts (args : list string) :
  match parse args with
  | UsageError _ => True
  | NoOperation => args = []
  | GetIntent paths =>
      exists rest, args = "get" :: rest /\ paths = SplitPaths rest
  | SubscribeIntent paths =>
      exists rest, args = "subscribe" :: rest /\ paths = SplitPaths rest
  | SetIntent setOps =>
      exists cmds,
        cmds <> [] /\ args = tokens cmds /\
        setOps = map command_operation cmds
  end.
Proof.
  unfold parse.
  destruct (parseOps args []) as [msg | | paths | paths | setOps] eqn:H.
  - exact I.
  - apply parseOps_nothing_inv in H. apply H.
  - apply (proj1 (parseOps_read_inv args [])) in H. apply H.
  - apply (proj2 (parseOps_read_inv args [])) in H. apply H.
  - destruct (parseOps_set_inv _ _ _ H) as (cmds & -> & ->).
    exists cmds. repeat split.
    intros ->. discriminate H.
Qed.

(** Complete mutation commands, one or more, are accepted as they are
    written. *)
Lemma parse_commands (cmds : list command) :
  cmds <> [] ->
  parse (tokens cmds) = SetIntent (map command_operation cmds).
Proof.
  intros Hcmds. unfold parse.
  rewrite <- (app_nil_r (tokens cmds)), parseOps_tokens, app_nil_l.
  cbn [parseOps]. rewrite nonempty_true; [reflexivity |].
  destruct cmds; [congruence | discriminate].
Qed.

(** With [get] or [subscribe] in front, the loop looks at no further
    token: each of the remaining tokens becomes one path. *)
Lemma parse_read_first (rest : list string) :
  parse ("get" :: rest) = GetIntent (SplitPaths rest) /\
  parse ("subscribe" :: rest) = SubscribeIntent (SplitPaths rest) /\
  List.length (SplitPaths rest) = List.length rest.
Proof.
  repeat split. apply length_map.
Qed.

(** C2, at the input where it breaks: [get] (or [subscribe]) as the only
    token is accepted, and the intent it yields has no path at all. *)
Theorem read_without_path :
  parse ["get"] = GetIntent [] /\
  parse ["subscribe"] = SubscribeIntent [] /\
  fst (Demo.main ["get"])
  = [Dial; CallGet {| pb.GetRequest_Path := [] |};
     Stdout ("a/b:" ++ nl); Stdout ("x" ++ nl)].
Proof. repeat split. Qed.

(** C4, as amended: when one or more complete mutation commands are
    followed by [get], [subscribe] or [capabilities] in the place of the
    next command, parsing fails with the usage error that the keyword is
    not allowed after a mutation. *)
Theorem read_after_mutation_rejected (cmds : list command) (kw : string)
  (rest : list string) :
  cmds <> [] ->
  is_read kw = true ->
  parse (tokens cmds ++ kw :: rest) = UsageError (not_allowed kw).
Proof.
  intros Hcmds Hkw. unfold parse.
  rewrite parseOps_tokens, app_nil_l.
  assert (Hq : nonempty (map command_operation cmds) = true).
  { apply nonempty_true. destruct cmds; [congruence | discriminate]. }
  destruct (is_read_cases kw Hkw) as [-> | [-> | ->]];
    cbn -[nonempty not_allowed]; rewrite Hq; reflexivity.
Qed.

(** C5, as amended: when no token in front of [capabilities] is [get],
    [subscribe], [update], [replace] or [delete], parsing fails with a
    usage error and the run issues no RPC call; when [capabilities] is
    the first token, the error is that it is not supported. *)
Theorem capabilities_rejected (pre rest : list string) :
  no_operation_keyword pre ->
  (exists msg,
      parse (pre ++ "capabilities" :: rest) = UsageError msg /\
      main (pre ++ "capabilities" :: rest)
      = ([Dial; Usage; Stderr (msg ++ nl)], Exited 1)) /\
  no_rpc (fst (main (pre ++ "capabilities" :: rest))) /\
  (pre = [] ->
   parse (pre ++ "capabilities" :: rest)
   = UsageError "error: 'capabilities' not supported").
Proof.
  intros Hpre.
  assert (Hparse : exists msg,
             parse (pre ++ "capabilities" :: rest) = UsageError msg).
  { destruct pre as [|tok pre'].
    - eexists. reflexivity.
    - inversion Hpre as [|? ? (Hget & Hsub & Hmut) _]; subst.
      cbn. rewrite Hget, Hsub, Hmut.
      destruct (tok =? "capabilities"); eexists; reflexivity. }
  destruct Hparse as [msg Hmsg].
  assert (Hmain : main (pre ++ "capabilities" :: rest)
                  = ([Dial; Usage; Stderr (msg ++ nl)], Exited 1)).
  { rewrite main_dispatch, Hmsg. reflexivity. }
  split; [exists msg; split; assumption |].
  split; [rewrite Hmain; reflexivity |].
  intros ->. reflexivity.
Qed.

(** C6, as amended: wherever a mutation keyword stands in the place of a
    command (after any number of complete mutation commands), [update],
    [replace] and [delete] with nothing after them fail with "missing
    path"; [update] and [replace] with a path and nothing after it fail
    with "missing JSON"; [delete] with a path is complete, and the token
    after its path is read as the next command. *)
Theorem mutation_operands (cmds : list command) (p : string)
  (rest : list string) (setOps : list operation) :
  parse (tokens cmds ++ ["update"]) = UsageError "error: missing path" /\
  parse (tokens cmds ++ ["replace"]) = UsageError "error: missing path" /\
  parse (tokens cmds ++ ["delete"]) = UsageError "error: missing path" /\
  parse (tokens cmds ++ ["update"; p]) = UsageError "error: missing JSON" /\
  parse (tokens cmds ++ ["replace"; p]) = UsageError "error: missing JSON" /\
  parse (tokens cmds ++ ["delete"; p])
  = SetIntent (map command_operation (cmds ++ [Delete p])) /\
  parseOps ("delete" :: p :: rest) setOps
  = parseOps rest
      (setOps ++ [{| opType := "delete"; path := SplitPath p; val := "" |}]).
Proof.
  unfold parse. rewrite !parseOps_tokens.
  repeat split.
  cbn -[nonempty]. rewrite nonempty_app, map_app. reflexivity.
Qed.

End ArgumentLoop.

(** C6, as stated, fails: in [update /a update] the last token is an
    [update] keyword that no path follows, but it stands where the JSON of
    the first update is expected, and parsing succeeds; in
    [replace update /a] the [update] keyword has a path and no value after
    it, but it is the path of the replace, and parsing succeeds; and in
    [foo update] parsing fails on [foo], as an unknown operation, not
    with "missing path". *)
Lemma mutation_keyword_as_operand :
  mutation_keyword_last ["update"; "/a"; "update"] = true /\
  Demo.parse ["update"; "/a"; "update"]
  = SetIntent [{| opType := "update"; path := ["a"]; val := "update" |}] /\
  update_keyword_last_but_one ["replace"; "update"; "/a"] = true /\
  Demo.parse ["replace"; "update"; "/a"]
  = SetIntent [{| opType := "replace"; path := ["update"]; val := "/a" |}] /\
  mutation_keyword_last ["foo"; "update"] = true /\
  Demo.parse ["foo"; "update"]
  = UsageError ("error: unknown operation " ++ Demo.Quote "foo") /\
  Demo.parse ["foo"; "update"] <> UsageError "error: missing path".
Proof. repeat split. discriminate. Qed.

(** C4, as stated, fails: in [update /a get] a mutation keyword is
    followed later by [get], but [get] stands where the JSON of the update
    is expected; it is queued as that value and parsing succeeds. *)
Lemma mutation_then_get_accepted :
  mutation_then_read ["update"; "/a"; "get"] = true /\
  Demo.parse ["update"; "/a"; "get"]
  = SetIntent [{| opType := "update"; path := ["a"]; val := "get" |}] /\
  (forall msg, Demo.parse ["update"; "/a"; "get"] <> UsageError msg).
Proof.
  repeat split. intros msg H. discriminate H.
Qed.

Lemma read_after_mutation_rejected_witness :
  [Delete "/a"] <> [] /\
  is_read "get" = true /\
  Demo.parse ["delete"; "/a"; "get"; "/b"]
  = UsageError "error: 'get' not allowed after 'merge|replace|delete'".
Proof.
  split; [discriminate |]. split; [reflexivity |].
  apply (read_after_mutation_rejected (env := Demo.env)
           [Delete "/a"] "get" ["/b"]); [discriminate | reflexivity].
Defined.

(** C5, as stated, fails: in [get capabilities] no mutation keyword
    stands in front of [capabilities], but [get] has already taken the
    rest of the arguments as paths; parsing succeeds and a Get call goes
    out for the path [capabilities].  And in [foo capabilities] parsing
    does fail, but on [foo], as an unknown operation. *)
Lemma capabilities_as_path :
  capabilities_unpreceded ["get"; "capabilities"] = true /\
  Demo.parse ["get"; "capabilities"] = GetIntent [["capabilities"]] /\
  existsb is_rpc (fst (Demo.main ["get"; "capabilities"])) = true /\
  capabilities_unpreceded ["foo"; "capabilities"] = true /\
  Demo.parse ["foo"; "capabilities"]
  = UsageError ("error: unknown operation " ++ Demo.Quote "foo") /\
  Demo.parse ["foo"; "capabilities"]
  <> UsageError "error: 'capabilities' not supported".
Proof. repeat split. discriminate. Qed.

Lemma capabilities_rejected_witness :
  no_operation_keyword ["foo"] /\
  no_rpc (fst (Demo.main ["foo"; "capabilities"; "/a"])) /\
  Demo.parse ["capabilities"; "/a"]
  = UsageError "error: 'capabilities' not supported".
Proof.
  assert (Hfoo : no_operation_keyword ["foo"]) by (repeat constructor).
  split; [exact Hfoo |]. split.
  - exact (proj1 (proj2
      (capabilities_rejected (env := Demo.env) ["foo"] ["/a"] Hfoo))).
  - exact (proj2 (proj2
      (capabilities_rejected (env := Demo.env) [] ["/a"] (Forall_nil _)))
      eq_refl).
Defined.

(** ** Computations and their outcomes *)

Lemma snd_bind {A B : Type} (m : IO A) (k : A -> IO B) :
  snd (bind m k)
  = match snd m with
    | Done a => snd (k a)
    | Crash msg => Crash msg
    | Exited code => Exited code
    | Blocked => Blocked
    end.
Proof.
  destruct m as [t [a | msg | code |]]; cbn; try reflexivity.
  destruct (k a); reflexivity.
Qed.

Lemma fst_bind {A B : Type} (m : IO A) (k : A -> IO B) :
  fst (bind m k)
  = fst m ++ match snd m with
             | Done a => fst (k a)
             | _ => []
             end.
Proof.
  destruct m as [t [a | msg | code |]]; cbn; rewrite ?app_nil_r;
    try reflexivity.
  destruct (k a); reflexivity.
Qed.

Lemma defer_exits {A : Type} (e : event) (body : IO A) :
  exits (snd (defer e body)) = true ->
  fst (defer e body) = fst body ++ [e].
Proof.
  destruct body as [t [a | msg | code |]]; cbn; intros H;
    try reflexivity; discriminate H.
Qed.

(** ** The receive loop *)

Section ReceiveLoop.

Context {env : Collaborators}.

Lemma snd_print_subscribed (u : pb.Update) :
  snd (print_subscribed u)
  = match strVal u with
    | Ret _ => Done tt
    | Panic msg => Crash msg
    end.
Proof.
  unfold print_subscribed. rewrite snd_bind.
  destruct (strVal u); reflexivity.
Qed.

(** Printing a notification either gets through all its updates or
    stops in the panic of the first value that cannot be rendered. *)
Lemma for_each_print_subscribed (us : list pb.Update) :
  (Forall (fun u => exists s, strVal u = Ret s) us /\
   snd (for_each print_subscribed us) = Done tt)
  \/
  (~ Forall (fun u => exists s, strVal u = Ret s) us /\
   exists msg, snd (for_each print_subscribed us) = Crash msg).
Proof.
  induction us as [|u us IH].
  - left. split; [constructor | reflexivity].
  - cbn [for_each]. rewrite snd_bind, snd_print_subscribed.
    destruct (strVal u) as [s | msg] eqn:Hu.
    + destruct IH as [[Hall Hdone] | [Hnot Hcrash]].
      * left. split; [| exact Hdone].
        constructor; [exists s; exact Hu | exact Hall].
      * right. split; [| exact Hcrash].
        intros Hall. apply Hnot. inversion Hall; assumption.
    + right. split; [| exists msg; reflexivity].
      intros Hall. inversion Hall as [|? ? [s Hs] _]; subst.
      rewrite Hu in Hs. discriminate Hs.
Qed.

(** One received item does exactly one of four things: it makes the
    loop return an error, return nil, go round again, or panic while
    printing. *)
Lemma recv_step_outcome (received : error + pb.SubscribeResponse) :
  (exists e,
      fails_with received e /\
      snd (recv_step received) = Done (Some (Some e)))
  \/ (received = inl io_EOF /\
      snd (recv_step received) = Done (Some None))
  \/ (goes_on received /\ snd (recv_step received) = Done None)
  \/ (exists n msg,
        received
        = inr {| pb.SubscribeResponse_Response :=
                   Some (pb.SubscribeResponse_Update n) |} /\
        ~ printable n /\
        snd (recv_step received) = Crash msg).
Proof.
  destruct received as [err | [[[n | [|] | resp] |]]].
  - destruct err.
    + right. left. split; reflexivity.
    + left. eexists. split; [constructor; discriminate | reflexivity].
    + left. eexists. split; [constructor; discriminate | reflexivity].
  - unfold recv_step.
    cbn [pb.SubscribeResponse_Response]. rewrite snd_bind.
    destruct (for_each_print_subscribed (pb.Notification_Update n))
      as [[Hall Hdone] | [Hnot [msg Hcrash]]].
    + right. right. left. split; [constructor; exact Hall |].
      rewrite Hdone. reflexivity.
    + right. right. right. exists n, msg.
      split; [reflexivity |]. split; [exact Hnot |].
      rewrite Hcrash. reflexivity.
  - right. right. left. split; [constructor | reflexivity].
  - left. eexists. split; [constructor | reflexivity].
  - left. eexists. split; [constructor | reflexivity].
  - right. right. left. split; [constructor | reflexivity].
Qed.

Lemma fails_with_not_goes_on (received : error + pb.SubscribeResponse)
  (e : error) :
  fails_with received e -> ~ goes_on received.
Proof.
  intros Hf Hg. inversion Hf; subst; inversion Hg.
Qed.

Lemma fails_with_functional (received : error + pb.SubscribeResponse)
  (e e' : error) :
  fails_with received e -> fails_with received e' -> e = e'.
Proof.
  intros Hf Hf'. inversion Hf; subst; inversion Hf'; subst; reflexivity.
Qed.

Lemma recv_step_fails (received : error + pb.SubscribeResponse)
  (e : error) :
  fails_with received e ->
  snd (recv_step received) = Done (Some (Some e)).
Proof.
  intros Hf. inversion Hf as [resp | | err Herr]; subst;
    try reflexivity.
  destruct e; [congruence | reflexivity | reflexivity].
Qed.

Lemma recv_step_goes_on (received : error + pb.SubscribeResponse) :
  goes_on received -> snd (recv_step received) = Done None.
Proof.
  intros Hon.
  destruct (recv_step_outcome received)
    as [(e & Hf & _) | [(-> & _) | [(_ & E) | (n & msg & -> & Hn & _)]]].
  - exfalso. exact (fails_with_not_goes_on _ _ Hf Hon).
  - inversion Hon.
  - exact E.
  - inversion Hon; subst. contradiction.
Qed.

Lemma recv_loop_nil : snd (recv_loop []) = Blocked.
Proof. reflexivity. Qed.

Lemma recv_loop_cons (received : error + pb.SubscribeResponse)
  (incoming : list (error + pb.SubscribeResponse)) :
  snd (recv_loop (received :: incoming))
  = match snd (recv_step received) with
    | Done (Some result) => Done result
    | Done None => snd (recv_loop incoming)
    | Crash msg => Crash msg
    | Exited code => Exited code
    | Blocked => Blocked
    end.
Proof.
  cbn [recv_loop].
  rewrite snd_bind. cbn [emit snd]. rewrite snd_bind.
  destruct (snd (recv_step received)) as [[result |] | msg | code |];
    reflexivity.
Qed.

(** The loop goes past the items that let it go on. *)
Lemma recv_loop_goes_on
  (pre incoming : list (error + pb.SubscribeResponse)) :
  Forall goes_on pre ->
  snd (recv_loop (pre ++ incoming)) = snd (recv_loop incoming).
Proof.
  induction 1 as [|received pre Hon _ IH]; [reflexivity |].
  cbn [app]. rewrite recv_loop_cons, (recv_step_goes_on _ Hon).
  exact IH.
Qed.

(** Where a returning loop stopped. *)
Lemma recv_loop_returns (incoming : list (error + pb.SubscribeResponse))
  (result : option error) :
  snd (recv_loop incoming) = Done result ->
  exists pre received post,
    incoming = pre ++ received :: post /\
    Forall goes_on pre /\
    match result with
    | Some e => fails_with received e
    | None => received = inl io_EOF
    end.
Proof.
  induction incoming as [|received incoming IH]; intros Hdone.
  - discriminate Hdone.
  - rewrite recv_loop_cons in Hdone.
    destruct (recv_step_outcome received)
      as [(e & Hf & E) | [(-> & E) | [(Hon & E) | (n & msg & _ & _ & E)]]];
      rewrite E in Hdone.
    + injection Hdone as <-.
      exists [], received, incoming. repeat split; [constructor | exact Hf].
    + injection Hdone as <-.
      exists [], (inl io_EOF), incoming.
      repeat split. constructor.
    + destruct (IH Hdone) as (pre & x & post & -> & Hpre & Hx).
      exists (received :: pre), x, post.
      repeat split; [constructor; assumption | exact Hx].
    + discriminate Hdone.
Qed.

(** A loop that has not returned yet and only met items that let it go
    on is still waiting. *)
Lemma recv_loop_waits (incoming : list (error + pb.SubscribeResponse)) :
  Forall goes_on incoming -> snd (recv_loop incoming) = Blocked.
Proof.
  intros Hall. rewrite <- (app_nil_r incoming).
  rewrite recv_loop_goes_on by exact Hall. reflexivity.
Qed.

(** The returns of the receive loop: it returns an error exactly when the
    first item that does not let it go on is an Error response, a
    SyncResponse of false or a receive error other than [io.EOF], and nil
    exactly when that item is [io.EOF]; a value that cannot be rendered
    ends it in a panic instead, which is no return.  Whenever [subscribe]
    is left, by return or by panic, the deferred [cancel] has run last. *)
Lemma subscribe_exits (client : GNMIClient) (paths : list (list string))
  (incoming : list (error + pb.SubscribeResponse)) (e : error) :
  (snd (recv_loop incoming) = Done (Some e) <->
   exists pre received post,
     incoming = pre ++ received :: post /\
     Forall goes_on pre /\ fails_with received e) /\
  (snd (recv_loop incoming) = Done None <->
   exists pre post,
     incoming = pre ++ inl io_EOF :: post /\ Forall goes_on pre) /\
  (exits (snd (subscribe client paths)) = true ->
   exists t, fst (subscribe client paths) = t ++ [Cancel]).
Proof.
  split; [| split].
  - split.
    + intros Hdone. exact (recv_loop_returns _ _ Hdone).
    + intros (pre & received & post & -> & Hpre & Hf).
      rewrite recv_loop_goes_on by exact Hpre.
      rewrite recv_loop_cons, (recv_step_fails _ _ Hf). reflexivity.
  - split.
    + intros Hdone.
      destruct (recv_loop_returns _ _ Hdone)
        as (pre & received & post & -> & Hpre & ->).
      exists pre, post. split; [reflexivity | exact Hpre].
    + intros (pre & post & -> & Hpre).
      rewrite recv_loop_goes_on by exact Hpre. reflexivity.
  - intros Hexit. eexists. apply defer_exits. exact Hexit.
Qed.

End ReceiveLoop.

(** C7, at the input where it breaks: the stream delivers a sync response
    of true and then an update whose value is a decimal with
    [Precision = 64].  Neither item is an Error response, a SyncResponse
    of false or a receive error, and yet [subscribe] does not go on
    receiving: it ends in the panic of the division by zero, a failure
    outside the three of the claim.  The deferred [cancel] has run. *)
Theorem subscribe_panics_on_decimal :
  let d := {| Digits := 1; Precision := 64 |} in
  let items := [Demo.sync true; Demo.notify [Demo.decimal_update d]] in
  Decimal64_wf d /\
  Forall (fun item =>
            (forall e, ~ fails_with item e) /\ item <> inl io_EOF) items /\
  Demo.subscribe (Demo.server Demo.ok items) [["a"; "b"]]
  = ([CallSubscribe;
      StreamSend {| pb.SubscribeRequest_Path := [Demo.a_b] |};
      StreamRecv; StreamRecv; Cancel],
     Crash divide_by_zero).
Proof.
  cbv zeta. split; [| split].
  - split; split; vm_compute; congruence.
  - repeat constructor; try discriminate; intros e H; inversion H.
  - reflexivity.
Qed.

(** ** extractJSON and set *)

Section SetExecutor.

Context {env : Collaborators}.

(** C9: [extractJSON] has a payload for every token and no way of
    reporting an error: the contents of the file when the token names a
    file that can be read, and otherwise the bytes of the token itself,
    which read back as the token. *)
Theorem extractJSON_payload (val : string) :
  (exists jsonBytes,
      ReadFile val = inr jsonBytes /\ extractJSON val = jsonBytes)
  \/
  (exists err,
      ReadFile val = inl err /\
      extractJSON val = list_byte_of_string val /\
      string_of_list_byte (extractJSON val) = val).
Proof.
  unfold extractJSON.
  destruct (ReadFile val) as [err | jsonBytes].
  - right. exists err. repeat split.
    apply string_of_list_byte_of_string.
  - left. exists jsonBytes. split; reflexivity.
Qed.

(** The request loop stops at the first operation whose path cannot be
    built, with the error of that operation. *)
Lemma set_request_fails (setOps : list operation) :
  Exists (fun op => ~ parses op) setOps ->
  forall req,
  exists pre op post err,
    setOps = pre ++ op :: post /\
    Forall parses pre /\
    ParseGNMIElements (path op) = inl err /\
    set_request setOps req = inl err.
Proof.
  induction setOps as [|op setOps IH]; intros Hex req.
  - inversion Hex.
  - destruct (ParseGNMIElements (path op)) as [err | elm] eqn:Hop.
    + exists [], op, setOps, err.
      repeat split; [constructor | exact Hop |].
      cbn. rewrite Hop. reflexivity.
    + assert (Hrest : Exists (fun op => ~ parses op) setOps).
      { inversion Hex as [? ? Hnot | ? ? Hlater]; subst; [| exact Hlater].
        exfalso. apply Hnot. exists elm. exact Hop. }
      destruct (IH Hrest
                  (add_operation req op
                     {| pb.Path_Element := path op; pb.Path_Elem := elm |}))
        as (pre & op' & post & err & -> & Hpre & Hop' & Hreq).
      exists (op :: pre), op', post, err.
      repeat split.
      * constructor; [exists elm; exact Hop | exact Hpre].
      * exact Hop'.
      * cbn. rewrite Hop. exact Hreq.
Qed.

(** C10: when the structured path of some queued operation cannot be
    built, [set] returns the error of the first such operation and does
    nothing else: no Set call goes out. *)
Theorem set_path_error (client : GNMIClient) (setOps : list operation)
  (op : operation) (err : error) :
  In op setOps ->
  ParseGNMIElements (path op) = inl err ->
  exists pre first post err',
    setOps = pre ++ first :: post /\
    Forall parses pre /\
    ParseGNMIElements (path first) = inl err' /\
    set client setOps = ([], Done (Some err')) /\
    no_rpc (fst (set client setOps)).
Proof.
  intros Hin Hop.
  assert (Hex : Exists (fun op => ~ parses op) setOps).
  { apply Exists_exists. exists op. split; [exact Hin |].
    intros [elm Helm]. rewrite Hop in Helm. discriminate Helm. }
  destruct (set_request_fails setOps Hex empty_SetRequest)
    as (pre & first & post & err' & Heq & Hpre & Hfirst & Hreq).
  exists pre, first, post, err'.
  assert (Hset : set client setOps = ([], Done (Some err'))).
  { unfold set. rewrite Hreq. reflexivity. }
  repeat split; try assumption.
  rewrite Hset. reflexivity.
Qed.

(** C8: when the request is built and the Set call returns a response,
    a status other than OK makes [set] return an error with the message
    of the server, and the status OK (or no status at all) makes it return
    nil; either way the call is all that happens, nothing is printed. *)
Theorem set_status (client : GNMIClient) (setOps : list operation)
  (req : pb.SetRequest) (resp : pb.SetResponse) :
  set_request setOps empty_SetRequest = inr req ->
  client_Set client req = inr resp ->
  (forall message,
      pb.SetResponse_Message resp = Some message ->
      pb.Error_Code message <> codes_OK ->
      set client setOps
      = ([CallSet req],
         Done (Some (errors_New (pb.Error_Message message))))) /\
  (forall message,
      pb.SetResponse_Message resp = Some message ->
      pb.Error_Code message = codes_OK ->
      set client setOps = ([CallSet req], Done None)) /\
  (pb.SetResponse_Message resp = None ->
   set client setOps = ([CallSet req], Done None)).
Proof.
  intros Hreq Hcall.
  unfold set. rewrite Hreq, bind_emit, Hcall.
  repeat split; [intros message Hmsg Hcode .. | intros Hmsg]; rewrite Hmsg.
  - destruct (Z.eqb_spec (pb.Error_Code message) codes_OK);
      [contradiction | reflexivity].
  - destruct (Z.eqb_spec (pb.Error_Code message) codes_OK);
      [reflexivity | contradiction].
  - reflexivity.
Qed.

End SetExecutor.

Lemma set_path_error_witness :
  let bad := {| opType := "delete"; path := ["[x"]; val := "" |} in
  In bad [bad] /\
  Demo.ParseGNMIElements (path bad) = inl Demo.malformed /\
  exists pre first post err',
    [bad] = pre ++ first :: post /\
    Forall (parses (env := Demo.env)) pre /\
    Demo.ParseGNMIElements (path first) = inl err' /\
    Demo.set Demo.client [bad] = ([], Done (Some err')) /\
    no_rpc (fst (Demo.set Demo.client [bad])).
Proof.
  cbv zeta. split; [left; reflexivity |]. split; [reflexivity |].
  apply (set_path_error (env := Demo.env) Demo.client
           [{| opType := "delete"; path := ["[x"]; val := "" |}]
           {| opType := "delete"; path := ["[x"]; val := "" |}
           Demo.malformed).
  - left. reflexivity.
  - reflexivity.
Defined.

Lemma set_status_witness :
  let del := {| opType := "delete"; path := ["a"]; val := "" |} in
  let req :=
    {| pb.SetRequest_Delete :=
         [{| pb.Path_Element := ["a"];
             pb.Path_Elem :=
               [{| pb.PathElem_Name := "a"; pb.PathElem_Key := [] |}] |}];
       pb.SetRequest_Replace := [];
       pb.SetRequest_Update := [] |} in
  Demo.set (Demo.server Demo.invalid []) [del]
  = ([CallSet req], Done (Some (errors_New "invalid argument"))) /\
  Demo.set (Demo.server Demo.ok []) [del] = ([CallSet req], Done None).
Proof.
  cbv zeta. split.
  - apply (proj1
      (set_status (env := Demo.env) (Demo.server Demo.invalid [])
         [{| opType := "delete"; path := ["a"]; val := "" |}]
         _ {| pb.SetResponse_Message := Some Demo.invalid |}
         eq_refl eq_refl) Demo.invalid);
      [reflexivity | discriminate].
  - apply (proj1 (proj2
      (set_status (env := Demo.env) (Demo.server Demo.ok [])
         [{| opType := "delete"; path := ["a"]; val := "" |}]
         _ {| pb.SetResponse_Message := Some Demo.ok |}
         eq_refl eq_refl)) Demo.ok);
      reflexivity.
Defined.

(** * Further properties *)

(** ** Decimal64 *)

Section DecimalText.
Local Open Scope Z_scope.

Lemma strDecimal64_small_precision (d : Decimal64) :
  0 <= Precision d <= 19 ->
  strDecimal64 d
  = Ret (fmt_uint (Digits d / 10 ^ Precision d) ++ "." ++
         fmt_uint (Digits d mod 10 ^ Precision d))%string.
Proof.
  intros Hp.
  assert (Hfit : 0 < 10 ^ Precision d < U64.modulus)
    by (apply pow10_fits; lia).
  unfold strDecimal64, decimal64_parts.
  destruct (Z.gtb_spec (Precision d) 0) as [Hpos | Hzero].
  - rewrite divisor_pow by lia. rewrite Z.mod_small by lia.
    destruct (Z.eqb_spec (10 ^ Precision d) 0) as [E | _]; [lia |].
    reflexivity.
  - replace (Precision d) with 0 by lia.
    change (10 ^ 0) with 1. rewrite Z.div_1_r, Z.mod_1_r. reflexivity.
Qed.

(** X1: for a well-formed decimal of at most nineteen fractional digits,
    [strDecimal64] prints the quotient and the remainder of the digits by
    ten to the precision, the two put the digits together again, and the
    remainder is below ten to the precision. *)
Theorem strDecimal64_exact (d : Decimal64) :
  Decimal64_wf d ->
  Precision d <= 19 ->
  strDecimal64 d
  = Ret (fmt_uint (Digits d / 10 ^ Precision d) ++ "." ++
         fmt_uint (Digits d mod 10 ^ Precision d))%string /\
  Digits d / 10 ^ Precision d * 10 ^ Precision d
  + Digits d mod 10 ^ Precision d = Digits d /\
  0 <= Digits d mod 10 ^ Precision d < 10 ^ Precision d.
Proof.
  intros [Hd Hp] H19.
  assert (Hp0 : 0 <= Precision d) by (destruct Hp; assumption).
  assert (Hfit : 0 < 10 ^ Precision d < U64.modulus)
    by (apply pow10_fits; lia).
  split; [| split].
  - apply strDecimal64_small_precision. lia.
  - rewrite Z.mul_comm. symmetry. apply Z.div_mod. lia.
  - apply Z.mod_pos_bound. lia.
Qed.

(** X2: the loop of [strDecimal64] arrives at ten to the precision
    reduced modulo [2^64]: exactly ten to the precision up to nineteen
    digits, never zero below sixty-four, and zero from sixty-four on. *)
Theorem divisor_wraps (precision : Z) :
  0 < precision ->
  divisor precision = 10 ^ precision mod U64.modulus /\
  (precision <= 19 -> divisor precision = 10 ^ precision) /\
  (precision < 64 -> divisor precision <> 0) /\
  (64 <= precision -> divisor precision = 0).
Proof.
  intros Hp. repeat split.
  - apply divisor_pow. exact Hp.
  - intros H19. rewrite divisor_pow by exact Hp.
    apply Z.mod_small.
    pose proof (pow10_fits precision). lia.
  - intros H64. apply divisor_nonzero. lia.
  - apply divisor_zero.
Qed.

(** X3: [strDecimal64] returns a string exactly when the precision is
    below sixty-four; from there on it panics on the division. *)
Theorem strDecimal64_returns_iff (d : Decimal64) :
  (exists s, strDecimal64 d = Ret s) <-> Precision d < 64.
Proof.
  split.
  - intros [s Hs].
    destruct (Z.lt_ge_cases (Precision d) 64) as [Hlt | Hge];
      [exact Hlt |].
    rewrite strDecimal64_panics in Hs by exact Hge. discriminate Hs.
  - apply strDecimal64_returns.
Qed.

(** X5: the fractional part is printed without leading zeros: a decimal
    with integer part [i] and fractional digits [frac] is shown as [i],
    a dot and [frac], whatever the precision, so that the text does not
    tell one precision from another. *)
Theorem strDecimal64_unpadded (i frac precision : Z) :
  0 <= i ->
  0 <= frac < 10 ^ precision ->
  0 <= precision <= 19 ->
  i * 10 ^ precision + frac < U64.modulus ->
  strDecimal64 {| Digits := i * 10 ^ precision + frac;
                  Precision := precision |}
  = Ret (fmt_uint i ++ "." ++ fmt_uint frac)%string.
Proof.
  intros Hi Hfrac Hp Hfit.
  assert (Hpow : 0 < 10 ^ precision) by (apply Z.pow_pos_nonneg; lia).
  rewrite strDecimal64_small_precision by (cbn [Precision]; lia).
  cbn [Digits Precision].
  rewrite Z.div_add_l by lia.
  rewrite Z.div_small by lia.
  rewrite Z.add_0_r.
  rewrite Z.add_comm, Z.mod_add by lia.
  rewrite Z.mod_small by lia.
  reflexivity.
Qed.

End DecimalText.

Lemma strDecimal64_exact_witness :
  let d := {| Digits := 1005; Precision := 3 |} in
  Decimal64_wf d /\ (Precision d <= 19)%Z /\ strDecimal64 d = Ret "1.5".
Proof.
  cbv zeta.
  assert (Hwf : Decimal64_wf {| Digits := 1005; Precision := 3 |}).
  { split; split; vm_compute; congruence. }
  assert (H19 : (Precision {| Digits := 1005; Precision := 3 |} <= 19)%Z).
  { vm_compute. congruence. }
  split; [exact Hwf |]. split; [exact H19 |].
  exact (proj1 (strDecimal64_exact _ Hwf H19)).
Defined.

Lemma divisor_wraps_witness :
  (0 < 20)%Z /\ divisor 20 = (10 ^ 20 mod U64.modulus)%Z.
Proof.
  split; [reflexivity |].
  exact (proj1 (divisor_wraps 20 eq_refl)).
Defined.

Lemma strDecimal64_unpadded_witness :
  strDecimal64 {| Digits := 1005; Precision := 3 |} = Ret "1.5" /\
  strDecimal64 {| Digits := 15; Precision := 1 |} = Ret "1.5".
Proof.
  split.
  - apply (strDecimal64_unpadded 1 5 3); vm_compute; intuition congruence.
  - apply (strDecimal64_unpadded 1 5 1); vm_compute; intuition congruence.
Defined.

(** ** strVal *)

(** X4: [strVal] panics on exactly one kind of update: the deprecated
    field is unset and [Val] holds a decimal of sixty-four or more
    fractional digits.  On every other update it returns a string. *)
Theorem strVal_panics_iff (u : pb.Update) :
  (exists msg, strVal u = Panic msg) <->
  pb.Update_Value u = None /\
  exists d,
    pb.GetValue (pb.Update_Val u) = Some (pb.TypedValue_DecimalVal d) /\
    (64 <= Precision d)%Z.
Proof.
  unfold strVal. split.
  - intros [msg Hmsg].
    destruct (pb.Update_Value u) as [value |]; [discriminate Hmsg |].
    split; [reflexivity |].
    destruct (pb.GetValue (pb.Update_Val u))
      as [[s | j | i | n | b | bs | d | t] |]; try discriminate Hmsg.
    exists d. split; [reflexivity |].
    destruct (Z.lt_ge_cases (Precision d) 64) as [Hlt | Hge];
      [| exact Hge].
    destruct (strDecimal64_returns d Hlt) as [s Hs].
    rewrite Hs in Hmsg. discriminate Hmsg.
  - intros (-> & d & -> & Hge).
    exists divide_by_zero. apply strDecimal64_panics. exact Hge.
Qed.

Section Payload.

Context {env : Collaborators}.

(** X6: a payload that [update] wraps is read back by [strVal] byte for
    byte; and a value token that names no readable file goes through
    [extractJSON], [update] and [strVal] unchanged. *)
Theorem strVal_update_round_trip (p : pb.Path) (j : list Byte.byte)
  (val : string) :
  strVal (update p j) = Ret (string_of_list_byte j) /\
  ((exists err, ReadFile val = inl err) ->
   strVal (update p (extractJSON val)) = Ret val).
Proof.
  split; [reflexivity |].
  intros [err Herr]. unfold extractJSON. rewrite Herr.
  cbn. rewrite string_of_list_byte_of_string. reflexivity.
Qed.

End Payload.

Lemma strVal_update_round_trip_witness :
  strVal (update Demo.a_b (extractJSON (env := Demo.env) "{1}")) = Ret "{1}".
Proof.
  apply (strVal_update_round_trip (env := Demo.env) Demo.a_b []).
  exists (foreign "open: no such file or directory"). reflexivity.
Defined.

(** ** The grammar of the argument loop *)

Lemma command_operation_shape {env : Collaborators} (c : command) :
  is_mutation (opType (command_operation c)) = true /\
  (opType (command_operation c) = "delete" ->
   val (command_operation c) = "").
Proof.
  destruct c; split; try reflexivity; intros H; discriminate H.
Qed.

Lemma index_in_range (args : list string) (k : nat) :
  k < List.length args -> index args k = Ret (nth k args "").
Proof.
  intros Hk. unfold index. rewrite (nth_error_nth' args "" Hk). reflexivity.
Qed.

Lemma slice_from_in_range (args : list string) (k : nat) :
  k <= List.length args -> slice_from args k = Ret (skipn k args).
Proof.
  intros Hk. unfold slice_from.
  destruct (Nat.leb_spec k (List.length args)); [reflexivity | lia].
Qed.

Section Grammar.

Context {env : Collaborators}.

(** X7: the argument loop yields a Set intent exactly for one or more
    complete mutation commands and nothing else on the command line, and
    the operations are those commands in the order they were written. *)
Theorem parse_set_iff (args : list string) (setOps : list operation) :
  parse args = SetIntent setOps <->
  exists cmds,
    cmds <> [] /\ args = tokens cmds /\
    setOps = map command_operation cmds.
Proof.
  split.
  - intros H. pose proof (parse_accepts args) as Hacc.
    rewrite H in Hacc. exact Hacc.
  - intros (cmds & Hcmds & -> & ->). apply parse_commands. exact Hcmds.
Qed.

(** X8: the argument loop yields a Get (or Subscribe) intent exactly
    when the first token is [get] (or [subscribe]); the paths are then the
    remaining tokens, one path for each, whatever those tokens are. *)
Theorem parse_read_iff (args : list string) (paths : list (list string)) :
  (parse args = GetIntent paths <->
   exists rest, args = "get" :: rest /\ paths = SplitPaths rest) /\
  (parse args = SubscribeIntent paths <->
   exists rest, args = "subscribe" :: rest /\ paths = SplitPaths rest).
Proof.
  split; split.
  - intros H. apply (proj1 (parseOps_read_inv args [])) in H. apply H.
  - intros (rest & -> & ->). reflexivity.
  - intros H. apply (proj2 (parseOps_read_inv args [])) in H. apply H.
  - intros (rest & -> & ->). reflexivity.
Qed.

(** X9: the operations of a Set intent are never none, each has one of
    the three types [update], [replace] and [delete], and a [delete]
    carries no value. *)
Theorem queued_operations (args : list string) (setOps : list operation) :
  parse args = SetIntent setOps ->
  setOps <> [] /\
  Forall (fun op =>
            is_mutation (opType op) = true /\
            (opType op = "delete" -> val op = "")) setOps.
Proof.
  intros H. pose proof (parse_accepts args) as Hacc.
  rewrite H in Hacc. destruct Hacc as (cmds & Hcmds & _ & ->).
  split.
  - destruct cmds; [congruence | discriminate].
  - apply Forall_map. apply Forall_forall. intros c _.
    apply command_operation_shape.
Qed.

(** X10: a token that is none of the six keywords, met in the place of a
    command, ends parsing with the usage error "unknown operation",
    whatever follows it. *)
Theorem unknown_operation_rejected (cmds : list command) (tok : string)
  (rest : list string) :
  is_keyword tok = false ->
  parse (tokens cmds ++ tok :: rest) = UsageError (unknown_operation tok).
Proof.
  unfold is_keyword, is_read. rewrite !orb_false_iff.
  intros [[[Hget Hsub] Hcap] Hmut].
  unfold parse. rewrite parseOps_tokens.
  cbn [parseOps]. rewrite Hcap, Hget, Hsub, Hmut. reflexivity.
Qed.

Lemma parseChecked_parseAt (turns : nat) (args : list string) :
  forall i setOps,
    parseChecked turns args i setOps
    = option_map Ret (parseAt turns args i setOps).
Proof.
  induction turns as [|turns IH]; intros i setOps.
  - cbn [parseChecked parseAt].
    destruct (i <? List.length args)%nat; [reflexivity |].
    destruct (nonempty setOps); reflexivity.
  - cbn [parseChecked parseAt].
    destruct (Nat.ltb_spec i (List.length args)) as [Hi | Hi].
    + rewrite (index_in_range args i Hi). cbv zeta.
      destruct (nth i args "" =? "capabilities").
      { destruct (nonempty setOps); reflexivity. }
      destruct (nth i args "" =? "get").
      { destruct (nonempty setOps); [reflexivity |].
        rewrite slice_from_in_range by lia. reflexivity. }
      destruct (nth i args "" =? "subscribe").
      { destruct (nonempty setOps); [reflexivity |].
        rewrite slice_from_in_range by lia. reflexivity. }
      destruct (is_mutation (nth i args "")); [| reflexivity].
      destruct (Nat.eqb_spec (List.length args) (i + 1)) as [Hlen | Hlen];
        [reflexivity |].
      rewrite (index_in_range args (i + 1)) by lia.
      destruct (negb (nth i args "" =? "delete")); [| apply IH].
      destruct (Nat.eqb_spec (List.length args) (i + 1 + 1))
        as [Hlen2 | Hlen2]; [reflexivity |].
      rewrite (index_in_range args (i + 1 + 1)) by lia.
      apply IH.
    + destruct (nonempty setOps); reflexivity.
Qed.

(** X11: run over the index as [main] writes it, with every [args[...]]
    checked, the argument loop is left after at most [len(args)] turns,
    never panics on an index or a slice out of range, and decides as the
    loop over the remaining arguments does. *)
Theorem parseChecked_parse (args : list string) :
  parseChecked (List.length args) args 0 [] = Some (Ret (parse args)).
Proof.
  rewrite parseChecked_parseAt, parseAt_parse. reflexivity.
Qed.

End Grammar.

Lemma queued_operations_witness :
  Demo.parse ["delete"; "/a"; "update"; "/b"; "{}"]
  = SetIntent
      [{| opType := "delete"; path := ["a"]; val := "" |};
       {| opType := "update"; path := ["b"]; val := "{}" |}] /\
  Forall (fun op =>
            is_mutation (opType op) = true /\
            (opType op = "delete" -> val op = ""))
    [{| opType := "delete"; path := ["a"]; val := "" |};
     {| opType := "update"; path := ["b"]; val := "{}" |}].
Proof.
  split; [reflexivity |].
  exact (proj2 (queued_operations (env := Demo.env)
                  ["delete"; "/a"; "update"; "/b"; "{}"] _ eq_refl)).
Defined.

Lemma unknown_operation_rejected_witness :
  is_keyword "merge" = false /\
  Demo.parse ["delete"; "/a"; "merge"; "/b"; "{}"]
  = UsageError ("error: unknown operation " ++ Demo.Quote "merge").
Proof.
  split; [reflexivity |].
  apply (unknown_operation_rejected (env := Demo.env)
           [Delete "/a"] "merge" ["/b"; "{}"]).
  reflexivity.
Defined.

(** ** How computations end *)

Lemma no_exit_bind {A B : Type} (m : IO A) (k : A -> IO B) :
  no_exit m -> (forall a, no_exit (k a)) -> no_exit (bind m k).
Proof.
  intros Hm Hk code. rewrite snd_bind.
  destruct (snd m) as [a | msg | code' |] eqn:E; try discriminate.
  - apply Hk.
  - exfalso. exact (Hm code' E).
Qed.

Lemma no_exit_ret {A : Type} (a : A) : no_exit (ret a).
Proof. intros code. discriminate. Qed.

Lemma no_exit_emit (e : event) : no_exit (emit e).
Proof. intros code. discriminate. Qed.

Lemma no_exit_eval {A : Type} (g : go A) : no_exit (eval g).
Proof. intros code. destruct g; discriminate. Qed.

Lemma no_exit_for_each {A : Type} (f : A -> IO unit) (l : list A) :
  (forall a, no_exit (f a)) -> no_exit (for_each f l).
Proof.
  intros Hf. induction l as [|a l IH]; [apply no_exit_ret |].
  cbn [for_each]. apply no_exit_bind; [apply Hf | intros _; exact IH].
Qed.

Lemma no_exit_defer {A : Type} (e : event) (body : IO A) :
  no_exit body -> no_exit (defer e body).
Proof.
  intros Hbody code.
  destruct body as [t [a | msg | code' |]]; cbn; try discriminate.
  intros H. exact (Hbody code' eq_refl).
Qed.

Section Exits.

Context {env : Collaborators}.

Lemma no_exit_get (client : GNMIClient) (paths : list (list string)) :
  no_exit (get client paths).
Proof.
  unfold get.
  destruct (NewGetRequest paths) as [err | req]; [apply no_exit_ret |].
  apply no_exit_bind; [apply no_exit_emit | intros _].
  destruct (client_Get client req) as [err | resp]; [apply no_exit_ret |].
  apply no_exit_bind; [| intros _; apply no_exit_ret].
  apply no_exit_for_each. intros notif.
  apply no_exit_for_each. intros u.
  unfold print_update.
  apply no_exit_bind; [apply no_exit_emit | intros _].
  apply no_exit_bind; [apply no_exit_eval | intros s; apply no_exit_emit].
Qed.

Lemma no_exit_set (client : GNMIClient) (setOps : list operation) :
  no_exit (set client setOps).
Proof.
  unfold set.
  destruct (set_request setOps empty_SetRequest) as [err | req];
    [apply no_exit_ret |].
  apply no_exit_bind; [apply no_exit_emit | intros _].
  destruct (client_Set client req) as [err | resp]; [apply no_exit_ret |].
  destruct (pb.SetResponse_Message resp) as [message |];
    [| apply no_exit_ret].
  destruct (negb (pb.Error_Code message =? codes_OK)%Z); apply no_exit_ret.
Qed.

Lemma no_exit_recv_step (received : error + pb.SubscribeResponse) :
  no_exit (recv_step received).
Proof.
  unfold recv_step.
  destruct received as [err | [[[n | b | resp] |]]].
  - destruct (is_EOF err); apply no_exit_ret.
  - apply no_exit_bind; [| intros _; apply no_exit_ret].
    apply no_exit_for_each. intros u. unfold print_subscribed.
    apply no_exit_bind; [apply no_exit_eval | intros s; apply no_exit_emit].
  - cbn. destruct (negb b); apply no_exit_ret.
  - apply no_exit_ret.
  - apply no_exit_ret.
Qed.

Lemma no_exit_recv_loop (incoming : list (error + pb.SubscribeResponse)) :
  no_exit (recv_loop incoming).
Proof.
  induction incoming as [|received incoming IH]; cbn [recv_loop].
  - intros code. discriminate.
  - apply no_exit_bind; [apply no_exit_emit | intros _].
    apply no_exit_bind; [apply no_exit_recv_step | intros [result |]].
    + apply no_exit_ret.
    + exact IH.
Qed.

Lemma no_exit_subscribe (client : GNMIClient) (paths : list (list string)) :
  no_exit (subscribe client paths).
Proof.
  unfold subscribe. apply no_exit_defer.
  apply no_exit_bind; [apply no_exit_emit | intros _].
  destruct (client_Subscribe client) as [err | stream]; [apply no_exit_ret |].
  destruct (NewSubscribeRequest paths) as [err | req]; [apply no_exit_ret |].
  apply no_exit_bind; [apply no_exit_emit | intros _].
  destruct (Send stream req); [apply no_exit_ret | apply no_exit_recv_loop].
Qed.

Lemma dispatch_executor (client : GNMIClient) (i : intent)
  (run : IO (option error)) :
  executor client i = Some run ->
  dispatch client i = (err <- run ;; fatal_on err) /\ no_exit run.
Proof.
  destruct i as [msg | | paths | paths | setOps]; cbn [executor];
    intros H; try discriminate H; injection H as <-.
  - split; [reflexivity | apply no_exit_get].
  - split; [reflexivity | apply no_exit_subscribe].
  - split; [reflexivity | apply no_exit_set].
Qed.

Lemma executor_accepts (client : GNMIClient) (i : intent) :
  rejected i \/ exists run, executor client i = Some run.
Proof.
  destruct i; cbn; try (left; exact I); right; eexists; reflexivity.
Qed.

(** X12: [main] ends with exit status 1 exactly when the argument loop
    refuses the command line; it has then printed the usage text and has
    issued no RPC call.  An executor that fails never leads to status 1. *)
Theorem main_usage_exit (args : list string) :
  (snd (main args) = Exited 1 <-> rejected (parse args)) /\
  (rejected (parse args) ->
   no_rpc (fst (main args)) /\
   exists t, fst (main args) = Dial :: Usage :: t).
Proof.
  rewrite main_dispatch.
  destruct (executor_accepts gnmi_Dial (parse args)) as [Hrej | [run Hrun]].
  - destruct (parse args) as [msg | | paths | paths | setOps];
      try contradiction.
    + repeat split; try reflexivity. eexists. reflexivity.
    + repeat split; try reflexivity. eexists. reflexivity.
  - destruct (dispatch_executor _ _ _ Hrun) as [-> Hno].
    assert (Hacc : ~ rejected (parse args)).
    { destruct (parse args); cbn in Hrun |- *; try discriminate Hrun; tauto. }
    split; [split | intros Hrej; contradiction]; [| intros Hrej; contradiction].
    rewrite !snd_bind. cbn [emit snd].
    destruct (snd run) as [[e |] | msg | code |] eqn:E; cbn;
      try discriminate.
    exfalso. exact (Hno code E).
Qed.

(** X13: once the command line is accepted, [main] adds nothing to what
    the executor did but the dial in front and the outcome: an error is
    logged by [glog.Fatal] and the status is 255; a nil error lets [main]
    return; a panic and a receive that never returns are passed on. *)
Theorem main_after_executor (args : list string)
  (run : IO (option error)) :
  executor gnmi_Dial (parse args) = Some run ->
  match snd run with
  | Done (Some e) => main args = (Dial :: fst run ++ [Fatal e], Exited 255)
  | Done None => main args = (Dial :: fst run, Done tt)
  | Crash msg => main args = (Dial :: fst run, Crash msg)
  | Blocked => main args = (Dial :: fst run, Blocked)
  | Exited _ => False
  end.
Proof.
  intros Hrun. rewrite main_dispatch.
  destruct (dispatch_executor _ _ _ Hrun) as [-> Hno].
  destruct run as [t [[e |] | msg | code |]]; cbn.
  - reflexivity.
  - rewrite app_nil_r. reflexivity.
  - reflexivity.
  - exact (Hno code eq_refl).
  - reflexivity.
Qed.

End Exits.

Lemma main_after_executor_witness :
  Demo.main ["subscribe"; "/a/b"]
  = (Dial :: fst (Demo.subscribe Demo.client [["a"; "b"]])
          ++ [Fatal (errors_New "initial sync failed")],
     Exited 255).
Proof.
  exact (main_after_executor (env := Demo.env) ["subscribe"; "/a/b"]
           (Demo.subscribe Demo.client [["a"; "b"]]) eq_refl).
Defined.

(** ** get *)

Section GetExecutor.

Context {env : Collaborators}.

Lemma shown_printable (u : pb.Update) :
  (exists s, strVal u = Ret s) -> strVal u = Ret (shown u).
Proof.
  intros [s Hs]. unfold shown. rewrite Hs. reflexivity.
Qed.

Lemma print_update_cases (u : pb.Update) :
  print_update u
  = match strVal u with
    | Ret s =>
        ([Stdout (StrPath (pb.Update_Path u) ++ ":" ++ nl); Stdout (s ++ nl)],
         Done tt)
    | Panic msg =>
        ([Stdout (StrPath (pb.Update_Path u) ++ ":" ++ nl)], Crash msg)
    end.
Proof.
  unfold print_update. destruct (strVal u); reflexivity.
Qed.

(** The updates of a notification are printed in order, up to the first
    that cannot be rendered. *)
Lemma for_each_print_update (us : list pb.Update) :
  (Forall (fun u => exists s, strVal u = Ret s) us /\
   for_each print_update us = (flat_map got_lines us, Done tt))
  \/
  (~ Forall (fun u => exists s, strVal u = Ret s) us /\
   exists t msg,
     for_each print_update us = (t, Crash msg) /\ Forall is_stdout t).
Proof.
  induction us as [|u us IH].
  - left. split; [constructor | reflexivity].
  - cbn [for_each]. rewrite print_update_cases.
    destruct (strVal u) as [s | msg] eqn:Hu.
    + destruct IH as [[Hall ->] | [Hnot (t & msg & -> & Ht)]].
      * left. split; [constructor; [exists s; exact Hu | exact Hall] |].
        cbn. unfold got_lines at 1, shown. rewrite Hu. reflexivity.
      * right. split.
        { intros Hall. apply Hnot. inversion Hall; assumption. }
        eexists. exists msg. split; [reflexivity |].
        repeat constructor; try (eexists; reflexivity). exact Ht.
    + right. split.
      * intros Hall. inversion Hall as [|? ? [s Hs] _]; subst.
        rewrite Hu in Hs. discriminate Hs.
      * eexists. exists msg. split; [reflexivity |].
        repeat constructor. eexists. reflexivity.
Qed.

Lemma for_each_notification (ns : list pb.Notification) :
  (Forall printable ns /\
   for_each (fun notif => for_each print_update (pb.Notification_Update notif))
            ns
   = (flat_map
        (fun notif => flat_map got_lines (pb.Notification_Update notif)) ns,
      Done tt))
  \/
  (~ Forall printable ns /\
   exists t msg,
     for_each
       (fun notif => for_each print_update (pb.Notification_Update notif)) ns
     = (t, Crash msg) /\ Forall is_stdout t).
Proof.
  induction ns as [|n ns IH].
  - left. split; [constructor | reflexivity].
  - cbn [for_each].
    destruct (for_each_print_update (pb.Notification_Update n))
      as [[Hn ->] | [Hn (t & msg & -> & Ht)]].
    + destruct IH as [[Hall ->] | [Hnot (t & msg & -> & Ht)]].
      * left. split; [constructor; assumption |]. reflexivity.
      * right. split.
        { intros Hall. apply Hnot. inversion Hall; assumption. }
        eexists. exists msg. split; [reflexivity |].
        apply Forall_app. split; [| exact Ht].
        apply Forall_flat_map. apply Forall_forall. intros u _.
        repeat constructor; eexists; reflexivity.
    + right. split.
      * intros Hall. apply Hn. inversion Hall; assumption.
      * exists t, msg. split; [reflexivity | exact Ht].
Qed.

(** X14: when the request is built and the call returns a response whose
    values can all be rendered, [get] makes that one call, prints for
    every update of every notification, in order, the path line and the
    value line, and returns nil; when some value cannot be rendered it
    ends in the panic. *)
Theorem get_prints (client : GNMIClient) (paths : list (list string))
  (req : pb.GetRequest) (resp : pb.GetResponse) :
  NewGetRequest paths = inr req ->
  client_Get client req = inr resp ->
  (all_printable resp ->
   get client paths = (CallGet req :: get_output resp, Done None)) /\
  (~ all_printable resp ->
   exists t msg, get client paths = (CallGet req :: t, Crash msg)).
Proof.
  intros Hreq Hresp. unfold get. rewrite Hreq, Hresp.
  destruct (for_each_notification (pb.GetResponse_Notification resp))
    as [[Hall E] | [Hnot (t & msg & E & _)]]; rewrite E.
  - split; [| intros Hnot; contradiction].
    intros _. cbn. rewrite app_nil_r. reflexivity.
  - split; [intros Hall; contradiction |].
    intros _. exists t, msg. reflexivity.
Qed.

(** X15: whatever the client and the paths, [get] issues at most one
    call, a Get call for the request built from the paths, and nothing
    but lines on standard output follows it; lines are printed only when
    the call has returned a response. *)
Theorem get_trace (client : GNMIClient) (paths : list (list string)) :
  (fst (get client paths) = [] /\ exists err, NewGetRequest paths = inl err)
  \/
  exists req out,
    NewGetRequest paths = inr req /\
    fst (get client paths) = CallGet req :: out /\
    Forall is_stdout out /\
    (out <> [] -> exists resp, client_Get client req = inr resp).
Proof.
  unfold get.
  destruct (NewGetRequest paths) as [err | req].
  - left. split; [reflexivity | exists err; reflexivity].
  - right. exists req.
    destruct (client_Get client req) as [err | resp].
    + exists []. repeat split; [constructor | congruence].
    + destruct (for_each_notification (pb.GetResponse_Notification resp))
        as [[Hall E] | [Hnot (t & msg & E & Ht)]]; rewrite E.
      * eexists. split; [reflexivity |]. split; [cbn; reflexivity |].
        split; [| intros _; exists resp; reflexivity].
        rewrite app_nil_r.
        apply Forall_flat_map. apply Forall_forall. intros n _.
        apply Forall_flat_map. apply Forall_forall. intros u _.
        repeat constructor; eexists; reflexivity.
      * exists t. split; [reflexivity |]. split; [reflexivity |].
        split; [exact Ht | intros _; exists resp; reflexivity].
Qed.

End GetExecutor.

Lemma get_prints_witness :
  get (env := Demo.env) Demo.client [["a"; "b"]]
  = ([CallGet {| pb.GetRequest_Path := [Demo.a_b] |};
      Stdout ("a/b:" ++ nl); Stdout ("x" ++ nl)],
     Done None).
Proof.
  apply (proj1
    (get_prints (env := Demo.env) Demo.client [["a"; "b"]]
       {| pb.GetRequest_Path := [Demo.a_b] |}
       {| pb.GetResponse_Notification :=
            [{| pb.Notification_Update := [Demo.string_update "x"] |}] |}
       eq_refl eq_refl)).
  repeat constructor. exists "x". reflexivity.
Defined.

(** ** set *)

Section SetRequest.

Context {env : Collaborators}.

Lemma path_of_parsed (op : operation) (elm : list pb.PathElem) :
  ParseGNMIElements (path op) = inr elm ->
  {| pb.Path_Element := path op; pb.Path_Elem := elm |} = path_of op.
Proof.
  intros H. unfold path_of. rewrite H. reflexivity.
Qed.

Lemma set_request_parses (setOps : list operation) :
  forall req req',
    set_request setOps req = inr req' -> Forall parses setOps.
Proof.
  induction setOps as [|op setOps IH]; intros req req' H;
    [constructor |].
  cbn [set_request] in H.
  destruct (ParseGNMIElements (path op)) as [err | elm] eqn:Hop;
    [discriminate H |].
  constructor; [exists elm; exact Hop | exact (IH _ _ H)].
Qed.

(** X16: when the paths of all operations can be parsed, the request
    [set] builds holds, list by list, the deletes, the replaces and the
    updates in the order of the operations; both encodings of the path
    are filled in, and an operation of any other type contributes to no
    list. *)
Theorem set_request_lists (setOps : list operation) :
  Forall parses setOps ->
  forall req,
    set_request setOps req
    = inr {| pb.SetRequest_Delete :=
               pb.SetRequest_Delete req ++ deleted setOps;
             pb.SetRequest_Replace :=
               pb.SetRequest_Replace req ++ updated "replace" setOps;
             pb.SetRequest_Update :=
               pb.SetRequest_Update req ++ updated "update" setOps |}.
Proof.
  induction 1 as [|op setOps [elm Hop] _ IH]; intros req.
  - cbn. unfold deleted, updated. cbn. rewrite !app_nil_r.
    destruct req; reflexivity.
  - cbn [set_request]. rewrite Hop. cbv zeta.
    rewrite (path_of_parsed op elm Hop), IH.
    unfold add_operation, deleted, updated. cbn [filter].
    change (has_type "delete" op) with (opType op =? "delete").
    change (has_type "update" op) with (opType op =? "update").
    change (has_type "replace" op) with (opType op =? "replace").
    destruct (String.eqb_spec (opType op) "delete") as [Hd | Hd].
    + rewrite Hd. cbn. rewrite <- app_assoc. reflexivity.
    + destruct (String.eqb_spec (opType op) "update") as [Hu | Hu].
      * rewrite Hu. cbn. rewrite <- app_assoc. reflexivity.
      * destruct (String.eqb_spec (opType op) "replace") as [Hr | Hr].
        -- cbn. rewrite <- app_assoc. reflexivity.
        -- reflexivity.
Qed.

Lemma filter_types_length (setOps : list operation) :
  Forall (fun op => is_mutation (opType op) = true) setOps ->
  List.length (filter (has_type "delete") setOps)
  + List.length (filter (has_type "update") setOps)
  + List.length (filter (has_type "replace") setOps)
  = List.length setOps.
Proof.
  induction 1 as [|op setOps Hop _ IH]; [reflexivity |].
  cbn [filter].
  change (has_type "delete" op) with (opType op =? "delete").
  change (has_type "update" op) with (opType op =? "update").
  change (has_type "replace" op) with (opType op =? "replace").
  destruct (is_mutation_cases _ Hop) as [E | [E | E]]; rewrite E;
    cbn [String.eqb Ascii.eqb Bool.eqb List.length]; lia.
Qed.

(** X17: no operation of the command line is lost on the way to the
    request: when the argument loop yields a Set intent and [set] builds
    the request for it, the deletes, updates and replaces of the request
    are together as many as the operations. *)
Theorem no_operation_dropped (args : list string)
  (setOps : list operation) (req : pb.SetRequest) :
  parse args = SetIntent setOps ->
  set_request setOps empty_SetRequest = inr req ->
  List.length (pb.SetRequest_Delete req)
  + List.length (pb.SetRequest_Update req)
  + List.length (pb.SetRequest_Replace req)
  = List.length setOps.
Proof.
  intros Hparse Hreq.
  pose proof (set_request_parses _ _ _ Hreq) as Hall.
  rewrite (set_request_lists setOps Hall) in Hreq.
  injection Hreq as <-. cbn.
  unfold deleted, updated. rewrite !length_map.
  apply filter_types_length.
  pose proof (parse_accepts args) as Hacc. rewrite Hparse in Hacc.
  destruct Hacc as (cmds & _ & _ & ->).
  apply Forall_map. apply Forall_forall. intros c _.
  apply command_operation_shape.
Qed.

(** X18: whatever the client and the operations, [set] prints nothing
    and issues no call, when a path cannot be parsed, or exactly one, the
    Set call for the request built from the operations; and when that call
    comes back with an error, [set] returns that error as it is. *)
Theorem set_trace (client : GNMIClient) (setOps : list operation) :
  ((exists err, set_request setOps empty_SetRequest = inl err) /\
   fst (set client setOps) = [])
  \/
  exists req,
    set_request setOps empty_SetRequest = inr req /\
    fst (set client setOps) = [CallSet req] /\
    (forall err,
        client_Set client req = inl err ->
        snd (set client setOps) = Done (Some err)).
Proof.
  unfold set.
  destruct (set_request setOps empty_SetRequest) as [err | req].
  - left. split; [exists err; reflexivity | reflexivity].
  - right. exists req. rewrite bind_emit.
    destruct (client_Set client req) as [err | resp].
    + repeat split. intros err' H. injection H as <-. reflexivity.
    + split; [reflexivity |]. split.
      * destruct (pb.SetResponse_Message resp) as [message |];
          [destruct (negb (pb.Error_Code message =? codes_OK)%Z) |];
          reflexivity.
      * intros err H. discriminate H.
Qed.

(** X19: a command line of complete mutation commands whose paths can
    all be parsed makes [main] issue exactly one call, the Set call that
    carries the commands list by list in their order, and return when the
    response has no status or the status OK. *)
Theorem main_set (cmds : list command) (resp : pb.SetResponse) :
  cmds <> [] ->
  Forall parses (map command_operation cmds) ->
  client_Set gnmi_Dial (request_of (map command_operation cmds)) = inr resp ->
  (pb.SetResponse_Message resp = None \/
   exists message,
     pb.SetResponse_Message resp = Some message /\
     pb.Error_Code message = codes_OK) ->
  main (tokens cmds)
  = ([Dial; CallSet (request_of (map command_operation cmds))], Done tt).
Proof.
  intros Hcmds Hall Hcall Hok.
  rewrite main_dispatch, (parse_commands cmds Hcmds).
  cbn [dispatch]. unfold set.
  rewrite (set_request_lists _ Hall). cbn [empty_SetRequest app
    pb.SetRequest_Delete pb.SetRequest_Replace pb.SetRequest_Update].
  fold (request_of (map command_operation cmds)).
  rewrite Hcall.
  destruct Hok as [-> | (message & -> & Hcode)].
  - reflexivity.
  - rewrite Hcode. reflexivity.
Qed.

End SetRequest.

Lemma set_request_lists_witness :
  let del := {| opType := "delete"; path := ["a"]; val := "" |} in
  let upd := {| opType := "update"; path := ["b"]; val := "{}" |} in
  Forall (parses (env := Demo.env)) [upd; del] /\
  set_request (env := Demo.env) [upd; del] empty_SetRequest
  = inr {| pb.SetRequest_Delete := deleted (env := Demo.env) [upd; del];
           pb.SetRequest_Replace := [];
           pb.SetRequest_Update :=
             updated (env := Demo.env) "update" [upd; del] |}.
Proof.
  cbv zeta.
  assert (Hall : Forall (parses (env := Demo.env))
                   [{| opType := "update"; path := ["b"]; val := "{}" |};
                    {| opType := "delete"; path := ["a"]; val := "" |}]).
  { repeat constructor; eexists; reflexivity. }
  split; [exact Hall |].
  exact (set_request_lists (env := Demo.env) _ Hall empty_SetRequest).
Defined.

Lemma no_operation_dropped_witness :
  exists setOps req,
    Demo.parse ["update"; "/b"; "{}"; "delete"; "/a"] = SetIntent setOps /\
    set_request (env := Demo.env) setOps empty_SetRequest = inr req /\
    List.length (pb.SetRequest_Delete req)
    + List.length (pb.SetRequest_Update req)
    + List.length (pb.SetRequest_Replace req) = 2.
Proof.
  eexists. eexists. split; [reflexivity |]. split; [reflexivity |].
  exact (no_operation_dropped (env := Demo.env)
           ["update"; "/b"; "{}"; "delete"; "/a"] _ _ eq_refl eq_refl).
Defined.

Lemma main_set_witness :
  Demo.main ["delete"; "/a"]
  = ([Dial;
      CallSet
        (request_of (env := Demo.env)
           [{| opType := "delete"; path := ["a"]; val := "" |}])],
     Done tt).
Proof.
  apply (main_set (env := Demo.env) [Delete "/a"]
           {| pb.SetResponse_Message := Some Demo.ok |}).
  - discriminate.
  - repeat constructor. eexists. reflexivity.
  - reflexivity.
  - right. exists Demo.ok. split; reflexivity.
Defined.

(** ** subscribe *)

Section SubscribeExecutor.

Context {env : Collaborators}.

Lemma print_subscribed_printable (u : pb.Update) :
  (exists s, strVal u = Ret s) ->
  print_subscribed u = ([subscribed_line u], Done tt).
Proof.
  intros [s Hs]. unfold print_subscribed, subscribed_line, shown.
  rewrite Hs. reflexivity.
Qed.

Lemma for_each_print_subscribed_printable (us : list pb.Update) :
  Forall (fun u => exists s, strVal u = Ret s) us ->
  for_each print_subscribed us = (map subscribed_line us, Done tt).
Proof.
  induction 1 as [|u us Hu _ IH]; [reflexivity |].
  cbn [for_each]. rewrite (print_subscribed_printable u Hu), IH.
  reflexivity.
Qed.

Lemma recv_turn_goes_on (received : error + pb.SubscribeResponse)
  (incoming : list (error + pb.SubscribeResponse)) :
  goes_on received ->
  recv_loop (received :: incoming)
  = (received_events received ++ fst (recv_loop incoming),
     snd (recv_loop incoming)).
Proof.
  intros Hon. cbn [recv_loop]. rewrite bind_emit.
  destruct (recv_loop incoming) as [t r].
  inversion Hon as [| n Hn |]; subst; cbn [received_events].
  - reflexivity.
  - unfold recv_step. cbn [pb.SubscribeResponse_Response].
    rewrite (for_each_print_subscribed_printable _ Hn).
    cbn. rewrite app_nil_r. reflexivity.
  - reflexivity.
Qed.


(** The loop prints what it receives as it receives it. *)
Lemma recv_loop_app (pre incoming : list (error + pb.SubscribeResponse)) :
  Forall goes_on pre ->
  recv_loop (pre ++ incoming)
  = (flat_map received_events pre ++ fst (recv_loop incoming),
     snd (recv_loop incoming)).
Proof.
  induction 1 as [|received pre Hon _ IH].
  - cbn. destruct (recv_loop incoming); reflexivity.
  - cbn [app flat_map]. rewrite (recv_turn_goes_on _ _ Hon), IH.
    cbn [fst snd]. rewrite <- app_assoc. reflexivity.
Qed.


(** X21: as long as the stream delivers nothing but sync responses of
    true, updates that can be rendered and responses without content,
    [subscribe] does not return: every update received so far is printed,
    the loop waits in [Recv], and the context is not cancelled. *)
Theorem subscribe_waits (client : GNMIClient) (paths : list (list string))
  (stream : Stream) (req : pb.SubscribeRequest) :
  client_Subscribe client = inr stream ->
  NewSubscribeRequest paths = inr req ->
  Send stream req = None ->
  Forall goes_on (incoming stream) ->
  subscribe client paths
  = (CallSubscribe :: StreamSend req ::
       flat_map received_events (incoming stream) ++ [StreamRecv],
     Blocked).
Proof.
  intros Hopen Hreq Hsend Hall.
  pose proof (recv_loop_app _ [] Hall) as Hloop.
  rewrite app_nil_r in Hloop.
  unfold subscribe. rewrite Hopen, Hreq, Hsend, Hloop.
  reflexivity.
Qed.

(** X22: the stream is opened before the request is built: when the
    client cannot open it, or the paths cannot be turned into a request,
    [subscribe] returns that error having sent and received nothing, and
    when sending fails it returns that error having received nothing; the
    context is cancelled each time. *)
Theorem subscribe_setup_errors (client : GNMIClient)
  (paths : list (list string)) :
  (forall err,
      client_Subscribe client = inl err ->
      subscribe client paths = ([CallSubscribe; Cancel], Done (Some err))) /\
  (forall stream err,
      client_Subscribe client = inr stream ->
      NewSubscribeRequest paths = inl err ->
      subscribe client paths = ([CallSubscribe; Cancel], Done (Some err))) /\
  (forall stream req err,
      client_Subscribe client = inr stream ->
      NewSubscribeRequest paths = inr req ->
      Send stream req = Some err ->
      subscribe client paths
      = ([CallSubscribe; StreamSend req; Cancel], Done (Some err))).
Proof.
  unfold subscribe. repeat split.
  - intros err ->. reflexivity.
  - intros stream err -> ->. reflexivity.
  - intros stream req err -> -> ->. reflexivity.
Qed.

End SubscribeExecutor.


Lemma subscribe_waits_witness :
  Demo.subscribe
    (Demo.server Demo.ok [Demo.notify [Demo.string_update "x"]])
    [["a"; "b"]]
  = ([CallSubscribe;
      StreamSend {| pb.SubscribeRequest_Path := [Demo.a_b] |};
      StreamRecv; Stdout ("a/b = x" ++ nl); StreamRecv],
     Blocked).
Proof.
  apply (subscribe_waits (env := Demo.env) _ [["a"; "b"]]
           {| Send := fun _ => None;
              incoming := [Demo.notify [Demo.string_update "x"]] |}
           {| pb.SubscribeRequest_Path := [Demo.a_b] |});
    try reflexivity.
  repeat constructor. exists "x". reflexivity.
Defined.

(** ** One exchange for each run *)

Lemma calls_bind {A B : Type} (m : IO A) (k : A -> IO B) :
  calls (fst (bind m k))
  = calls (fst m) ++ match snd m with
                     | Done a => calls (fst (k a))
                     | _ => []
                     end.
Proof.
  unfold calls. rewrite fst_bind, filter_app.
  destruct (snd m); reflexivity.
Qed.

Lemma calls_emit {B : Type} (e : event) (k : unit -> IO B) :
  calls (fst (bind (emit e) k)) = calls [e] ++ calls (fst (k tt)).
Proof.
  rewrite calls_bind. reflexivity.
Qed.

Lemma calls_for_each {A : Type} (f : A -> IO unit) (l : list A) :
  (forall a, calls (fst (f a)) = []) -> calls (fst (for_each f l)) = [].
Proof.
  intros Hf. induction l as [|a l IH]; [reflexivity |].
  cbn [for_each]. rewrite calls_bind, Hf.
  destruct (snd (f a)); [exact IH | reflexivity ..].
Qed.

Lemma calls_defer {A : Type} (e : event) (body : IO A) :
  is_call e = false -> calls (fst (defer e body)) = calls (fst body).
Proof.
  intros He. unfold calls.
  destruct body as [t [a | msg | code |]]; cbn [defer fst];
    try reflexivity; rewrite filter_app; cbn; rewrite He;
    apply app_nil_r.
Qed.

Section OneCall.

Context {env : Collaborators}.

Lemma calls_print_update (u : pb.Update) : calls (fst (print_update u)) = [].
Proof.
  rewrite print_update_cases. destruct (strVal u); reflexivity.
Qed.

Lemma calls_print_subscribed (u : pb.Update) :
  calls (fst (print_subscribed u)) = [].
Proof.
  unfold print_subscribed. destruct (strVal u); reflexivity.
Qed.

Lemma calls_get (client : GNMIClient) (paths : list (list string)) :
  List.length (calls (fst (get client paths))) <= 1.
Proof.
  unfold get.
  destruct (NewGetRequest paths) as [err | req]; [cbn; lia |].
  rewrite calls_emit.
  destruct (client_Get client req) as [err | resp]; [cbn; lia |].
  rewrite calls_bind, calls_for_each.
  - destruct (snd _); cbn; lia.
  - intros notif. apply calls_for_each. apply calls_print_update.
Qed.

Lemma calls_set (client : GNMIClient) (setOps : list operation) :
  List.length (calls (fst (set client setOps))) <= 1.
Proof.
  unfold set.
  destruct (set_request setOps empty_SetRequest) as [err | req];
    [cbn; lia |].
  rewrite calls_emit.
  destruct (client_Set client req) as [err | resp]; [cbn; lia |].
  destruct (pb.SetResponse_Message resp) as [message |]; [| cbn; lia].
  destruct (negb (pb.Error_Code message =? codes_OK)%Z); cbn; lia.
Qed.

Lemma calls_recv_step (received : error + pb.SubscribeResponse) :
  calls (fst (recv_step received)) = [].
Proof.
  unfold recv_step.
  destruct received as [err | [[[n | b | resp] |]]]; try reflexivity.
  - destruct (is_EOF err); reflexivity.
  - cbn [pb.SubscribeResponse_Response].
    rewrite calls_bind, calls_for_each by apply calls_print_subscribed.
    destruct (snd _); reflexivity.
  - cbn. destruct (negb b); reflexivity.
Qed.

Lemma calls_recv_loop (incoming : list (error + pb.SubscribeResponse)) :
  calls (fst (recv_loop incoming)) = [].
Proof.
  induction incoming as [|received incoming IH]; [reflexivity |].
  cbn [recv_loop]. rewrite calls_emit, calls_bind, calls_recv_step.
  destruct (snd (recv_step received)) as [[result |] | | |];
    try reflexivity.
  exact IH.
Qed.

Lemma calls_subscribe (client : GNMIClient) (paths : list (list string)) :
  List.length (calls (fst (subscribe client paths))) <= 1.
Proof.
  unfold subscribe. rewrite calls_defer by reflexivity.
  rewrite calls_emit.
  destruct (client_Subscribe client) as [err | stream]; [cbn; lia |].
  destruct (NewSubscribeRequest paths) as [err | req]; [cbn; lia |].
  rewrite calls_emit.
  destruct (Send stream req); [cbn; lia |].
  rewrite calls_recv_loop. cbn. lia.
Qed.

Lemma calls_fatal_on (err : option error) : calls (fst (fatal_on err)) = [].
Proof. destruct err; reflexivity. Qed.

(** X23: a run of [main] opens at most one exchange with the server: its
    trace holds at most one Get call, Set call or Subscribe call, whatever
    the command line and whatever the server answers. *)
Theorem main_one_call (args : list string) :
  List.length (calls (fst (main args))) <= 1.
Proof.
  rewrite main_dispatch, calls_emit.
  destruct (executor_accepts gnmi_Dial (parse args)) as [Hrej | [run Hrun]].
  - destruct (parse args); try contradiction; cbn; lia.
  - destruct (dispatch_executor _ _ _ Hrun) as [-> _].
    rewrite calls_bind.
    assert (Hrun1 : List.length (calls (fst run)) <= 1).
    { destruct (parse args); cbn [executor] in Hrun;
        try discriminate Hrun; injection Hrun as <-.
      - apply calls_get.
      - apply calls_subscribe.
      - apply calls_set. }
    change (calls [Dial]) with (@nil event). cbn [app].
    destruct (snd run) as [err | | |];
      rewrite ?calls_fatal_on, ?app_nil_r; exact Hrun1.
Qed.

End OneCall.
